(** * News article to graph database: the analyzer and the materializer

    A shallow embedding of [graph_project.py].  The three parts of the
    script that carry logic are embedded:

    - [extract_entities_and_relations], over the parser's output (a spaCy
      [Doc]: entity spans, sentences, tokens with their dependency links);
    - [store_in_graphdb], over the graph store (py2neo [Graph], [Node],
      [Relationship]), as explicit state passing;
    - [get_article_url], the prompt loop, over the lines the user types.

    The parser and the store are libraries the script calls; they are
    taken as the script sees them: a document is the data the script
    reads from it, the store is the nodes and edges created in it and the
    calls made on it.  A Python string is modelled as the [string] of
    the bytes of its UTF-8 encoding; the white space that [str.strip]
    removes is that of Python, all of Unicode's; [str.upper] is a
    parameter of the analyzer. *)

From Stdlib Require Import Ascii String.
From stdpp Require Import base option list strings gmap sets.

Local Open Scope string_scope.
Local Open Scope nat_scope.
Local Open Scope list_scope.
#[local] Set Warnings "-clear-no-such-hyp".

(** ** Python string methods *)

Module PyStr.

(** A Python string is kept as the bytes of its UTF-8 encoding: equality,
    concatenation and prefixes of strings are those of their bytes. *)
Definition bytes (codes : list nat) : string :=
  foldr (λ n s, String (ascii_of_nat n) s) EmptyString codes.

(** [str.lower], as far as the script uses it: the script compares the
    result with "q" only, and no character but "Q" and "q" has "q" as its
    lower case; the letters of ASCII are mapped, every other byte is
    kept. *)
Definition lower_char (c : ascii) : ascii :=
  let n := nat_of_ascii c in
  if (65 <=? n)%nat && (n <=? 90)%nat then ascii_of_nat (n + 32) else c.

Fixpoint lower (s : string) : string :=
  match s with
  | EmptyString => EmptyString
  | String c s' => String (lower_char c) (lower s')
  end.

(** The upper case of ASCII text.  [str.upper] itself follows the case
    tables of Unicode and is a parameter of the analyzer; this is what it
    gives on a text of ASCII characters, for the scenarios. *)
Definition ascii_upper_char (c : ascii) : ascii :=
  let n := nat_of_ascii c in
  if (97 <=? n)%nat && (n <=? 122)%nat then ascii_of_nat (n - 32) else c.

Fixpoint ascii_upper (s : string) : string :=
  match s with
  | EmptyString => EmptyString
  | String c s' => String (ascii_upper_char c) (ascii_upper s')
  end.

(** The white space of Python, that is the characters [str.strip]
    removes, each as its UTF-8 bytes: U+0009 to U+000D, U+001C to U+001F,
    U+0020, U+0085, U+00A0, U+1680, U+2000 to U+200A, U+2028, U+2029,
    U+202F, U+205F and U+3000. *)
Definition whitespace : list string :=
  map bytes
    [[9]; [10]; [11]; [12]; [13]; [28]; [29]; [30]; [31]; [32];
     [194; 133]; [194; 160]; [225; 154; 128];
     [226; 128; 128]; [226; 128; 129]; [226; 128; 130]; [226; 128; 131];
     [226; 128; 132]; [226; 128; 133]; [226; 128; 134]; [226; 128; 135];
     [226; 128; 136]; [226; 128; 137]; [226; 128; 138];
     [226; 128; 168]; [226; 128; 169]; [226; 128; 175];
     [226; 129; 159]; [227; 128; 128]].

(** What follows the prefix [p] in [s], when [s] starts with [p]. *)
Fixpoint drop_prefix (p s : string) : option string :=
  match p with
  | EmptyString => Some s
  | String a p' =>
      match s with
      | EmptyString => None
      | String b s' => if decide (a = b) then drop_prefix p' s' else None
      end
  end.

(** What follows the white space character that [s] starts with, if it
    starts with one. *)
Definition after_space (s : string) : option string :=
  head (omap (λ w, drop_prefix w s) whitespace).

(** [str.lstrip]: the leading white space characters go, one at a turn;
    there are no more of them than bytes. *)
Fixpoint lstrip_turns (turns : nat) (s : string) : string :=
  match turns with
  | 0 => s
  | S turns' =>
      match after_space s with
      | Some rest => lstrip_turns turns' rest
      | None => s
      end
  end.

Definition lstrip (s : string) : string := lstrip_turns (String.length s) s.

(** [str.rstrip]: from the end, a byte stays with what was kept after it
    unless the two together are a white space character. *)
Fixpoint rstrip (s : string) : string :=
  match s with
  | EmptyString => EmptyString
  | String c s' =>
      let kept := String c (rstrip s') in
      if bool_decide (kept ∈ whitespace) then EmptyString else kept
  end.

Definition strip (s : string) : string := rstrip (lstrip s).

(** [s.startswith(p)] and [s.startswith((p1, p2))]. *)
Definition startswith (s p : string) : bool := String.prefix p s.

Definition startswith_any (s : string) (ps : list string) : bool :=
  existsb (startswith s) ps.

(** [sep.join(parts)]. *)
Definition join (sep : string) (parts : list string) : string :=
  String.concat sep parts.

End PyStr.

(** ** The graph store (py2neo) *)

Module Neo.

(** A [Node] object: its identity (the Python object, which the store
    binds on creation), its label and its properties. *)
Record Node := mkNode {
  node_id : nat;
  node_label : string;
  node_props : list (string * string)
}.

(** [Relationship(start, type, end)]. *)
Record Relationship := mkRel {
  start_node : Node;
  rel_type : string;
  end_node : Node
}.

Global Instance Node_eq_dec : EqDecision Node.
Proof. solve_decision. Defined.

Global Instance Relationship_eq_dec : EqDecision Relationship.
Proof. solve_decision. Defined.

(** The calls the script makes on the module-level [graph]. *)
Inductive Call :=
| DeleteAll
| CreateNode (n : Node)
| CreateRel (r : Relationship).

Definition is_write (c : Call) : bool :=
  match c with
  | DeleteAll => false
  | CreateNode _ | CreateRel _ => true
  end.

(** The state the script runs in: the contents of the store, the
    allocator of [Node] objects, and the history of the calls made on
    the store (oldest first). *)
Record World := mkWorld {
  next_id : nat;
  store_nodes : list Node;
  store_rels : list Relationship;
  calls : list Call
}.

Definition empty_world : World := mkWorld 0 [] [] [].

(** State passing. *)
Definition St (A : Type) : Type := World → A * World.

Definition ret {A} (a : A) : St A := λ w, (a, w).

Definition bind {A B} (m : St A) (k : A → St B) : St B :=
  λ w, let (a, w') := m w in k a w'.

Definition exec {A} (m : St A) (w : World) : World := snd (m w).
Definition eval {A} (m : St A) (w : World) : A := fst (m w).

(** [Node(label, **props)]: a new object, not yet in the store. *)
Definition new_node (label : string) (props : list (string * string)) : St Node :=
  λ w, (mkNode (next_id w) label props,
        mkWorld (S (next_id w)) (store_nodes w) (store_rels w) (calls w)).

(** [graph.delete_all()]. *)
Definition delete_all : St unit :=
  λ w, (tt, mkWorld (next_id w) [] [] (calls w ++ [DeleteAll])).

(** [graph.create(node)]. *)
Definition create_node (n : Node) : St unit :=
  λ w, (tt, mkWorld (next_id w) (store_nodes w ++ [n]) (store_rels w)
              (calls w ++ [CreateNode n])).

(** [graph.create(relationship)], both ends being in the store. *)
Definition create_rel (r : Relationship) : St unit :=
  λ w, (tt, mkWorld (next_id w) (store_nodes w) (store_rels w ++ [r])
              (calls w ++ [CreateRel r])).

(** [for x in xs: acc = body(acc, x)], the loop-carried locals in [acc]. *)
Fixpoint for_each {A B} (xs : list A) (body : B → A → St B) (acc : B) : St B :=
  match xs with
  | [] => ret acc
  | x :: xs' => bind (body acc x) (for_each xs' body)
  end.

End Neo.

Notation "'let*' x ':=' m 'in' k" := (Neo.bind m (λ x, k))
  (at level 10, x name, m at level 100, k at level 200).
Notation "m ';;;' k" := (Neo.bind m (λ _, k))
  (at level 100, k at level 200, right associativity).

(** ** The materializer: [store_in_graphdb] *)

Module Materializer.
Import Neo.

(** [article_data], as [scrape_article] returns it.  [publish_date] is a
    timestamp or [None]; only its [str()] is used, kept here. *)
Record ArticleData := mkArticle {
  title : string;
  text : string;
  authors : list string;
  publish_date : option string;
  url : string
}.

(** A relation triple [(subject, predicate, obj)]. *)
Definition Triple : Type := string * string * string.

(** [entity_data]: the dict of entity names by type, in the dict's
    iteration order, and the list of relation triples. *)
Record EntityData := mkEntityData {
  entities : list (string * list string);
  relationships : list Triple
}.

(** [str(article_data['publish_date'])]. *)
Definition str_date (d : option string) : string :=
  match d with
  | Some s => s
  | None => "None"
  end.

Definition article_props (a : ArticleData) : list (string * string) :=
  [("name", title a); ("url", url a);
   ("publish_date", str_date (publish_date a));
   ("authors", PyStr.join ", " (authors a))].

(** The body of the inner loop of lines 97-105. *)
Definition store_entity (article_node : Node) (entity_type : string)
    (entity_nodes : gmap string Node) (entity_name : string)
    : St (gmap string Node) :=
  match entity_nodes !! entity_name with
  | Some _ => ret entity_nodes
  | None =>
      let* node := new_node entity_type [("name", entity_name)] in
      let entity_nodes := <[entity_name := node]> entity_nodes in
      create_node node ;;;
      create_rel (mkRel article_node "MENTIONS" node) ;;;
      ret entity_nodes
  end.

(** Lines 97-105: the two nested loops over [entities.items()]. *)
Definition store_entities (article_node : Node)
    (ents : list (string * list string)) : St (gmap string Node) :=
  for_each ents
    (λ entity_nodes item,
       for_each (snd item) (store_entity article_node (fst item)) entity_nodes)
    ∅.

(** The body of the loop of lines 108-116. *)
Definition store_relation (entity_nodes : gmap string Node)
    (_ : unit) (rel : Triple) : St unit :=
  let '(subject, predicate, obj) := rel in
  match entity_nodes !! subject, entity_nodes !! obj with
  | Some s, Some o => create_rel (mkRel s predicate o)
  | _, _ => ret tt
  end.

(** What the function leaves behind: its locals [article_node] and
    [entity_nodes], and the two numbers of the message
    "Stored {stored_entities} entities and {stored_relationships}
    relationships" that line 118 prints (the function itself returns
    [None]). *)
Record Outcome := mkOutcome {
  article_node : Node;
  entity_nodes : gmap string Node;
  stored_entities : nat;
  stored_relationships : nat
}.

Definition store_in_graphdb (article_data : ArticleData)
    (entity_data : EntityData) : St Outcome :=
  delete_all ;;;
  let* article_node := new_node "Article" (article_props article_data) in
  create_node article_node ;;;
  let* entity_nodes := store_entities article_node (entities entity_data) in
  for_each (relationships entity_data) (store_relation entity_nodes) tt ;;;
  ret (mkOutcome article_node entity_nodes
         (size entity_nodes) (length (relationships entity_data))).

(** The entity-to-entity edges of a store: those that do not start at
    the article node. *)
Definition entity_edges (art : Node) (w : World) : list Relationship :=
  filter (λ r, start_node r ≠ art) (store_rels w).

(** The entity nodes of a store: all nodes but the article's. *)
Definition entity_nodes_of (art : Node) (w : World) : list Node :=
  filter (λ n, n ≠ art) (store_nodes w).

End Materializer.

(** ** The parser's output (spaCy) *)

Module Spacy.

#[local] Unset Elimination Schemes.

(** A token of the dependency parse, with the attributes the script
    reads and its syntactic children: [lefts] are the children that
    precede the token in the text, [rights] those that follow it, both
    in the order of the text. *)
Inductive Token := mkToken {
  text : string;
  lemma_ : string;
  dep_ : string;
  lefts : list Token;
  rights : list Token
}.

#[local] Set Elimination Schemes.

(** [token.children]: the immediate children, left ones first. *)
Definition children (t : Token) : list Token := lefts t ++ rights t.

(** [token.subtree]: the token and all its descendants, as spaCy walks
    them: the subtrees of the left children, the token itself, the
    subtrees of the right children. *)
Fixpoint subtree (t : Token) : list Token :=
  match t with
  | mkToken _ _ _ ls rs => flat_map subtree ls ++ t :: flat_map subtree rs
  end.

(** An entity span [ent]: the token range it covers, its category
    [label_] and its surface text [ent.text]. *)
Record Ent := mkEnt {
  ent_start : nat;
  ent_end : nat;
  label_ : string;
  ent_text : string
}.

(** A sentence, iterated: its tokens in the order of the text. *)
Definition Sent : Type := list Token.

(** A parsed document: [doc.ents] and [doc.sents]. *)
Record Doc := mkDoc {
  ents : list Ent;
  sents : list Sent
}.

(** The number of tokens of the document: the sentences partition it. *)
Definition doc_length (d : Doc) : nat := length (concat (sents d)).

(** What the parser guarantees of its entity spans: each covers a
    non-empty range of the document's tokens. *)
Definition wf_doc (d : Doc) : Prop :=
  Forall (λ e, (ent_start e < ent_end e ∧ ent_end e ≤ doc_length d)%nat) (ents d).

(** A sentence whose tokens are the walk of one root token: the parse
    of the sentence is a projective tree. *)
Definition projective (s : Sent) : Prop := ∃ root, s = subtree root.

End Spacy.

(** ** The analyzer: [extract_entities_and_relations] *)

Module Analyzer.
Import Spacy Materializer.

(** A Python dict, which iterates in insertion order. *)
Section Dict.
Context {V : Type}.

Fixpoint dict_mem (k : string) (d : list (string * V)) : bool :=
  match d with
  | [] => false
  | (k', _) :: d' => if decide (k' = k) then true else dict_mem k d'
  end.

(** [d[k] = v]: in place for a key of the dict, at the end for a new one. *)
Fixpoint dict_set (k : string) (v : V) (d : list (string * V)) : list (string * V) :=
  match d with
  | [] => [(k, v)]
  | (k', v') :: d' =>
      if decide (k' = k) then (k', v) :: d' else (k', v') :: dict_set k v d'
  end.

(** [f(d[k])] for a mutating [f], on a key of the dict. *)
Fixpoint dict_update (k : string) (f : V → V) (d : list (string * V)) : list (string * V) :=
  match d with
  | [] => []
  | (k', v') :: d' =>
      if decide (k' = k) then (k', f v') :: d' else (k', v') :: dict_update k f d'
  end.
End Dict.

(** Lines 54-57, the body of the loop over [doc.ents]. *)
Definition add_entity (entities : list (string * gset string)) (ent : Ent)
    : list (string * gset string) :=
  let entities :=
    if dict_mem (label_ ent) entities then entities
    else dict_set (label_ ent) ∅ entities in
  dict_update (label_ ent) (λ names, names ∪ {[ent_text ent]}) entities.

Definition subject_roles : list string := ["nsubj"; "nsubjpass"].
Definition object_roles : list string := ["attr"; "acomp"; "dobj"].

(** Line 70: the texts of the child's subtree but the determiners',
    joined by single spaces. *)
Definition object_text (child : Token) : string :=
  PyStr.join " " (map Spacy.text (filter (λ t, dep_ t ≠ "det") (subtree child))).

Section Relations.
(** [str.upper] of the Python that runs the script, with the case tables
    of Unicode it carries. *)
Context (upper : string → string).

(** Lines 68-71, the body of the loop over [token.children]. *)
Definition visit_child (subject : string) (relationships : list Triple)
    (child : Token) : list Triple :=
  if bool_decide (dep_ child ∈ object_roles) then
    let predicate := upper (lemma_ child) in
    let obj := object_text child in
    relationships ++ [(subject, predicate, obj)]
  else relationships.

(** Lines 65-71, the body of the loop over the tokens of a sentence. *)
Definition visit_token (relationships : list Triple) (token : Token)
    : list Triple :=
  if bool_decide (dep_ token ∈ subject_roles) then
    let subject := Spacy.text token in
    foldl (visit_child subject) relationships (children token)
  else relationships.

(** Lines 63-71. *)
Definition extract_relations (doc : Doc) : list Triple :=
  foldl (λ relationships sent, foldl visit_token relationships sent)
    [] (sents doc).
End Relations.

Section Extract.
(** [str.upper], the loaded model [nlp], and the order in which [list(v)]
    lists a Python set, which the language leaves open. *)
Context (upper : string → string)
        (nlp : string → Doc) (list_of_set : gset string → list string).

Definition extract_entities (doc : Doc) : list (string * list string) :=
  let entities := foldl add_entity [] (ents doc) in
  map (λ kv, (fst kv, list_of_set (snd kv))) entities.

Definition extract_entities_and_relations (article_text : string)
    : EntityData :=
  let doc := nlp article_text in
  mkEntityData (extract_entities doc) (extract_relations upper doc).
End Extract.

End Analyzer.

(** ** The prompt: [get_article_url] *)

Module Prompt.

Definition invalid_url_message : string :=
  "Invalid URL. Please include http:// or https://".

(** One turn of the loop of lines 128-134 on the line [input()] read. *)
Inductive Turn :=
| Quit
| Accept (url : string)
| Reprompt.

Definition turn (line : string) : Turn :=
  let url := PyStr.strip line in
  if decide (PyStr.lower url = "q") then Quit
  else if PyStr.startswith_any url ["http://"; "https://"] then Accept url
  else Reprompt.

(** The loop, on the lines the user types: what it printed, and either
    the value returned with the lines left unread, or the end of the
    input ([input()] raises [EOFError]). *)
Inductive Prompted :=
| Returned (value : option string) (unread : list string)
| EndOfInput.

Fixpoint get_article_url (lines : list string) : list string * Prompted :=
  match lines with
  | [] => ([], EndOfInput)
  | line :: lines' =>
      match turn line with
      | Quit => ([], Returned None lines')
      | Accept url => ([], Returned (Some url) lines')
      | Reprompt =>
          let (printed, r) := get_article_url lines' in
          (invalid_url_message :: printed, r)
      end
  end.

End Prompt.

(** * Specification vocabulary *)

(** ** For the materializer *)

Module MaterializerSpec.
Import Neo Materializer.

(** The (type, name) pairs of an entity mapping, in the order in which
    the two nested loops process them. *)
Definition pairs (ents : list (string * list string)) : list (string * string) :=
  flat_map (λ item, map (pair (fst item)) (snd item)) ents.

(** All the surface names of an entity mapping. *)
Definition names (ents : list (string * list string)) : list string :=
  map snd (pairs ents).

(** The pairs whose name was not seen before them. *)
Fixpoint first_seen (seen : gset string) (ps : list (string * string))
    : list (string * string) :=
  match ps with
  | [] => []
  | p :: ps' =>
      if decide (snd p ∈ seen) then first_seen seen ps'
      else p :: first_seen ({[snd p]} ∪ seen) ps'
  end.

(** The nodes made for a list of pairs, numbered from [base], each
    with the name it is filed under. *)
Fixpoint named (base : nat) (ps : list (string * string)) : list (string * Node) :=
  match ps with
  | [] => []
  | p :: ps' =>
      (snd p, mkNode base (fst p) [("name", snd p)]) :: named (S base) ps'
  end.

Definition file (m : gmap string Node) (b : string * Node) : gmap string Node :=
  <[fst b := snd b]> m.

Definition mentions (art : Node) (n : Node) : Relationship :=
  mkRel art "MENTIONS" n.

Definition entity_calls (art : Node) (n : Node) : list Call :=
  [CreateNode n; CreateRel (mentions art n)].

(** The edge a triple gives rise to, if any. *)
Definition edge_of (m : gmap string Node) (rel : Triple) : option Relationship :=
  let '(subject, predicate, obj) := rel in
  match m !! subject, m !! obj with
  | Some s, Some o => Some (mkRel s predicate o)
  | _, _ => None
  end.

(** The article node and the name-to-node bindings of a run. *)
Definition article_of (a : ArticleData) (w : World) : Node :=
  mkNode (next_id w) "Article" (article_props a).

Definition bindings (ents : list (string * list string)) (w : World)
    : list (string * Node) :=
  named (S (next_id w)) (first_seen ∅ (pairs ents)).

Definition flattened (ents : list (string * list string)) (w : World)
    : gmap string Node :=
  foldl file ∅ (bindings ents w).

(** A triple has both its ends among the keys of a mapping. *)
Definition both_keys (m : gmap string Node) (rel : Triple) : Prop :=
  rel.1.1 ∈ dom m ∧ rel.2 ∈ dom m.

Global Instance both_keys_dec m rel : Decision (both_keys m rel).
Proof. unfold both_keys. apply _. Defined.

(** What a node and an edge carry, their identity apart. *)
Definition node_data (n : Node) : string * list (string * string) :=
  (node_label n, node_props n).

Definition rel_data (r : Relationship) :=
  (node_data (start_node r), rel_type r, node_data (end_node r)).

(** The nodes and the edges that a sequence of calls creates. *)
Fixpoint created_nodes (cs : list Call) : list Node :=
  match cs with
  | [] => []
  | CreateNode n :: cs' => n :: created_nodes cs'
  | _ :: cs' => created_nodes cs'
  end.

Fixpoint created_rels (cs : list Call) : list Relationship :=
  match cs with
  | [] => []
  | CreateRel r :: cs' => r :: created_rels cs'
  | _ :: cs' => created_rels cs'
  end.

End MaterializerSpec.

(** ** For the analyzer *)

Module AnalyzerSpec.
Import Spacy Materializer Analyzer.

Section Triples.
Context (upper : string → string).

(** The triple a child of a subject gives rise to, if any. *)
Definition child_triple (subject : string) (child : Token) : option Triple :=
  if bool_decide (dep_ child ∈ object_roles)
  then Some (subject, upper (lemma_ child), object_text child)
  else None.

(** The triples of a token, in the order of its children. *)
Definition token_triples (token : Token) : list Triple :=
  if bool_decide (dep_ token ∈ subject_roles)
  then omap (child_triple (Spacy.text token)) (children token)
  else [].

(** The triples of a sentence, in the order of its tokens. *)
Definition sentence_triples (sent : Sent) : list Triple :=
  flat_map token_triples sent.
End Triples.

(** A character occurs in a string. *)
Fixpoint has_char (c : ascii) (s : string) : bool :=
  match s with
  | EmptyString => false
  | String c' s' => if decide (c' = c) then true else has_char c s'
  end.

End AnalyzerSpec.

(** ** Inputs of the scenarios *)

Module Scenarios.
Import Neo Materializer Spacy Analyzer.

(** The scenario of C1: two entities, one triple whose object is no
    entity. *)
Definition acme_entities : EntityData :=
  mkEntityData [("ORG", ["Acme"]); ("PERSON", ["Jane Smith"])]
               [("Acme", "ANNOUNCE", "profits")].

(** The scenario of C2: "Apple" under two types. *)
Definition apple_entities : EntityData :=
  mkEntityData [("ORG", ["Apple"]); ("PRODUCT", ["Apple"])] [].

Definition some_article : ArticleData :=
  mkArticle "Quarterly results" "Acme announced record profits."
            ["Jane Smith"] None "https://example.com/news/1".

(** Two organisations, a person, and two triples, of which one has no
    entity as its object. *)
Definition acme_announces : EntityData :=
  mkEntityData [("ORG", ["Acme"; "Initech"]); ("PERSON", ["Jane Smith"])]
               [("Acme", "ACQUIRE", "Initech"); ("Acme", "ANNOUNCE", "profits")].

(** The parse that C4 describes of "The company announced record
    profits.": "company" is the subject, "announced" hangs under it
    with "profits" as its direct object and "record" modifying the
    latter.  The role under which "announced" hangs is left open. *)
Definition tok_the : Token := mkToken "The" "the" "det" [] [].
Definition tok_record : Token := mkToken "record" "record" "amod" [] [].
Definition tok_profits : Token := mkToken "profits" "profit" "dobj" [tok_record] [].
Definition tok_dot : Token := mkToken "." "." "punct" [] [].
Definition tok_announced (role : string) : Token :=
  mkToken "announced" "announce" role [] [tok_profits].
Definition tok_company (role : string) : Token :=
  mkToken "company" "company" "nsubj" [tok_the] [tok_announced role; tok_dot].

Definition company_parse (role : string) : Doc :=
  mkDoc [] [subtree (tok_company role)].

(** The parse of the sentence with the verb as root, the subject and
    the object hanging under it. *)
Definition verb_rooted_parse : Doc :=
  mkDoc []
    [subtree (mkToken "announced" "announce" "ROOT"
                [mkToken "company" "company" "nsubj" [tok_the] []]
                [tok_profits; tok_dot])].

(** A parse whose arcs cross: the words stand in the order "She red
    car bright", and "bright", the last word, hangs to the right of
    "red", which hangs to the left of "car", the direct object of the
    subject "She". *)
Definition tok_bright : Token := mkToken "bright" "bright" "amod" [] [].
Definition tok_red : Token := mkToken "red" "red" "amod" [] [tok_bright].
Definition tok_car : Token := mkToken "car" "car" "dobj" [tok_red] [].
Definition tok_she : Token := mkToken "She" "she" "nsubj" [] [tok_car].

Definition crossing_sentence : Sent := [tok_she; tok_red; tok_car; tok_bright].

Definition crossing_parse : Doc := mkDoc [] [crossing_sentence].

(** A parser for the statements that need one: it knows the sentence
    of the example and finds nothing in any other text. *)
Definition example_nlp (article_text : string) : Doc :=
  if decide (article_text = "The company announced record profits.")
  then company_parse "dobj"
  else mkDoc [] [].

End Scenarios.

(** * The rest of the script *)

(** ** The session: [scrape_article] and [main] *)

Module Pipeline.
Import Neo Materializer Spacy Analyzer Prompt.

(** What newspaper's [Article] holds after [download()] and [parse()]:
    the title, the text, the authors and the publication date (its
    [str()], or [None]). *)
Record Parsed := mkParsed {
  parsed_title : string;
  parsed_text : string;
  parsed_authors : list string;
  parsed_publish_date : option string
}.

(** What [main] prints, line by line of the script: the message of
    line 134, the message of line 118, the summary of lines 154-161,
    the error of lines 164-165 and the farewell of line 141. *)
Inductive Event :=
| Said (message : string)
| Stored (entity_count relationship_count : nat)
| Complete (article_title : string) (found_entities found_relationships : nat)
| Failed (error : string)
| Exiting.

(** How a session ends: [break] at line 142, or [EOFError] out of
    [input()], which no handler catches.  [OutOfFuel] belongs to the
    model alone. *)
Inductive Ending :=
| Exited
| EOFError
| OutOfFuel.

(** [not article_url]: true of [None] and of the empty string. *)
Definition falsy (v : option string) : bool :=
  match v with
  | None => true
  | Some s => bool_decide (s = "")
  end.

(** Line 158: [sum(len(v) for v in entity_data['entities'].values())]. *)
Definition found_entities (ents : list (string * list string)) : nat :=
  sum_list (map (λ kv, length (snd kv)) ents).

Section Main.
(** [str.upper]; the download and parse of a URL, which raises or gives
    the article; the loaded model; the order in which [list(v)] lists a
    set. *)
Context (upper : string → string)
        (fetch : string → string + Parsed)
        (nlp : string → Doc)
        (list_of_set : gset string → list string).

(** Lines 30-43. *)
Definition scrape_article (url : string) : string + ArticleData :=
  match fetch url with
  | inl e => inl e
  | inr a =>
      inr (mkArticle (parsed_title a) (parsed_text a) (parsed_authors a)
             (parsed_publish_date a) url)
  end.

(** Lines 138-165: the loop of [main], on the lines the user types.  The
    [try] block catches what [scrape_article] raises; the parser and the
    store are taken not to raise, as in the embedding above. *)
Fixpoint main_loop (fuel : nat) (lines : list string) (w : World)
    : list Event * Ending * World :=
  match fuel with
  | 0 => ([], OutOfFuel, w)
  | S fuel' =>
      let said := map Said (fst (get_article_url lines)) in
      match snd (get_article_url lines) with
      | EndOfInput => (said, EOFError, w)
      | Returned article_url unread =>
          if falsy article_url then (said ++ [Exiting], Exited, w)
          else
            match scrape_article (default "" article_url) with
            | inl e =>
                let '(events, ending, w') := main_loop fuel' unread w in
                (said ++ Failed e :: events, ending, w')
            | inr article_data =>
                let entity_data :=
                  extract_entities_and_relations upper nlp list_of_set
                    (Materializer.text article_data) in
                let (out, w1) := store_in_graphdb article_data entity_data w in
                let '(events, ending, w') := main_loop fuel' unread w1 in
                (said ++
                 Stored (stored_entities out) (stored_relationships out) ::
                 Complete (title article_data)
                   (found_entities (entities entity_data))
                   (length (relationships entity_data)) :: events,
                 ending, w')
            end
      end
  end.

(** Every turn of the loop reads a line at least, so that as many turns
    as there are lines, and one more, see the session to its end. *)
Definition main (lines : list string) (w : World) : list Event * Ending * World :=
  main_loop (S (length lines)) lines w.

End Main.

End Pipeline.

(** ** Vocabulary for the rest *)

Module PipelineSpec.
Import Neo Materializer Spacy Analyzer Prompt Pipeline.


(** The keys that a list of keys adds to those seen, in the order of
    their first appearance. *)
Fixpoint fresh_keys (seen : list string) (ks : list string) : list string :=
  match ks with
  | [] => []
  | k :: ks' =>
      if decide (k ∈ seen) then fresh_keys seen ks'
      else k :: fresh_keys (seen ++ [k]) ks'
  end.

(** [d.get(k)] on a dict in insertion order. *)
Fixpoint dict_get {V} (k : string) (d : list (string * V)) : option V :=
  match d with
  | [] => None
  | (k', v) :: d' => if decide (k' = k) then Some v else dict_get k d'
  end.

(** A string that does not start with a white space character. *)
Definition starts_clean (s : string) : Prop := PyStr.after_space s = None.

Section Session.
Context (upper : string → string)
        (fetch : string → string + Parsed)
        (nlp : string → Doc)
        (list_of_set : gset string → list string).



(** A session read as one pass over its lines, a line a step. *)
Fixpoint session (lines : list string) (w : World) : list Event * Ending * World :=
  match lines with
  | [] => ([], EOFError, w)
  | line :: lines' =>
      match turn line with
      | Quit => ([Exiting], Exited, w)
      | Reprompt =>
          let '(events, ending, w') := session lines' w in
          (Said invalid_url_message :: events, ending, w')
      | Accept url =>
          match scrape_article fetch url with
          | inl e =>
              let '(events, ending, w') := session lines' w in
              (Failed e :: events, ending, w')
          | inr a =>
              let ed := extract_entities_and_relations upper nlp list_of_set
                          (Materializer.text a) in
              let '(events, ending, w') :=
                session lines' (exec (store_in_graphdb a ed) w) in
              (Stored (stored_entities (eval (store_in_graphdb a ed) w))
                      (stored_relationships (eval (store_in_graphdb a ed) w)) ::
               Complete (title a) (found_entities (entities ed))
                        (length (relationships ed)) :: events,
               ending, w')
          end
      end
  end.


End Session.

End PipelineSpec.

(** ** Inputs of a session *)

Module SessionScenarios.
Import Neo Materializer Spacy Analyzer Prompt Pipeline PipelineSpec Scenarios.

(** A download that knows one article and fails on any other URL. *)
Definition example_fetch (url : string) : string + Parsed :=
  if decide (url = "https://example.com/news/1")
  then inr (mkParsed "Quarterly results" "The company announced record profits."
              ["Jane Smith"] None)
  else inl "Article download failed".

(** A session: a line that is no URL, a URL that fails, one that
    downloads, the sentinel, and a line that is never read. *)
Definition example_lines : list string :=
  ["bbc news"; "https://example.com/404"; "  https://example.com/news/1 ";
   " Q "; "https://example.com/news/1"].

(** A document with entities: "Acme" twice as an organisation, "Paris"
    as a place and as a person. *)
Definition example_ents : list Ent :=
  [mkEnt 0 1 "ORG" "Acme"; mkEnt 3 4 "GPE" "Paris"; mkEnt 6 7 "ORG" "Acme";
   mkEnt 9 10 "PERSON" "Paris"; mkEnt 12 13 "ORG" "Initech"].

End SessionScenarios.

(** * Properties *)

(** ** The string methods on the words of the scenarios *)

Example upper_announce : PyStr.ascii_upper "announce" = "ANNOUNCE".
Proof. reflexivity. Qed.

Example lower_mixed : PyStr.lower "Q" = "q" ∧ PyStr.lower "HTTP://x" = "http://x".
Proof. split; reflexivity. Qed.

Example strip_padded : PyStr.strip "  q  " = "q" ∧ PyStr.strip " a b " = "a b".
Proof. split; reflexivity. Qed.

(** A no-break space (U+00A0) before, an em space (U+2003) before and a
    no-break space after, a tab before and a line feed after: all go.
    The bytes of a letter with an accent stay. *)
Example strip_unicode_padded :
  PyStr.strip (String.append (PyStr.bytes [194; 160]) "q") = "q" ∧
  PyStr.strip (String.append (PyStr.bytes [226; 128; 131])
                 (String.append " http://a" (PyStr.bytes [194; 160]))) = "http://a" ∧
  PyStr.strip (String.append (PyStr.bytes [9])
                 (String.append "q" (PyStr.bytes [10]))) = "q" ∧
  PyStr.strip (PyStr.bytes [99; 97; 102; 195; 169]) = PyStr.bytes [99; 97; 102; 195; 169].
Proof. repeat split. Qed.

Example join_words :
  PyStr.join " " ["announced"; "record"; "profits"] = "announced record profits".
Proof. reflexivity. Qed.

Example startswith_scheme :
  PyStr.startswith_any "https://example.com" ["http://"; "https://"] = true ∧
  PyStr.startswith_any "ftp://example.com" ["http://"; "https://"] = false.
Proof. split; reflexivity. Qed.

(** ** What a run of the materializer does *)

Module MaterializerFacts.
Import Neo Materializer MaterializerSpec.

Lemma for_each_app {A B} (xs ys : list A) (body : B → A → St B) acc w :
  for_each (xs ++ ys) body acc w =
  let (acc', w') := for_each xs body acc w in for_each ys body acc' w'.
Proof.
  revert acc w. induction xs as [|x xs IH]; intros acc w; simpl.
  - reflexivity.
  - unfold bind. destruct (body acc x w) as [a w1]. apply IH.
Qed.

Lemma for_each_map {A B C} (f : C → A) (xs : list C) (body : B → A → St B) acc w :
  for_each (map f xs) body acc w = for_each xs (λ b c, body b (f c)) acc w.
Proof.
  revert acc w. induction xs as [|x xs IH]; intros acc w; simpl.
  - reflexivity.
  - unfold bind. destruct (body acc (f x) w) as [a w1]. apply IH.
Qed.

(** The nested loops are one loop over the pairs. *)
Lemma store_entities_pairs art ents m w :
  for_each ents
    (λ entity_nodes item,
       for_each (snd item) (store_entity art (fst item)) entity_nodes) m w =
  for_each (pairs ents) (λ entity_nodes p, store_entity art (fst p) entity_nodes (snd p)) m w.
Proof.
  revert m w. induction ents as [|[ty ns] ents IH]; intros m w.
  - reflexivity.
  - unfold pairs. simpl. fold (pairs ents).
    rewrite for_each_app, for_each_map. unfold bind. simpl.
    destruct (for_each ns _ m w) as [m1 w1]. apply IH.
Qed.

(** The loop over the pairs, run. *)
Lemma store_pairs_run art ps m w :
  for_each ps (λ entity_nodes p, store_entity art (fst p) entity_nodes (snd p)) m w =
  let bs := named (next_id w) (first_seen (dom m) ps) in
  (foldl file m bs,
   mkWorld (next_id w + length bs)
     (store_nodes w ++ map snd bs)
     (store_rels w ++ map (mentions art) (map snd bs))
     (calls w ++ flat_map (entity_calls art) (map snd bs))).
Proof.
  revert m w. induction ps as [|[ty n] ps IH]; intros m w; simpl.
  - unfold ret. destruct w; simpl. rewrite Nat.add_0_r, !app_nil_r. reflexivity.
  - unfold bind, store_entity. simpl.
    destruct (m !! n) as [nd|] eqn:Hn.
    + unfold ret. rewrite IH.
      destruct (decide (n ∈ dom m)) as [_|Hnot]; [reflexivity|].
      exfalso. apply Hnot, elem_of_dom. eauto.
    + unfold bind, new_node, create_node, create_rel, ret. simpl.
      rewrite IH. simpl.
      destruct (decide (n ∈ dom m)) as [Hin|_].
      { apply elem_of_dom in Hin. rewrite Hn in Hin. destruct Hin; discriminate. }
      rewrite dom_insert_L. simpl. unfold file at 2. simpl.
      f_equal. f_equal; [lia | | | ]; rewrite <- ?app_assoc; reflexivity.
Qed.

(** The loop over the triples, run. *)
Lemma store_relations_run m rels w :
  for_each rels (store_relation m) tt w =
  (tt, mkWorld (next_id w) (store_nodes w)
         (store_rels w ++ omap (edge_of m) rels)
         (calls w ++ map CreateRel (omap (edge_of m) rels))).
Proof.
  revert w. induction rels as [|[[s p] o] rels IH]; intros w; simpl.
  - unfold ret. destruct w; simpl. rewrite !app_nil_r. reflexivity.
  - unfold bind, store_relation.
    destruct (m !! s) as [ns|]; [destruct (m !! o) as [no|]|].
    + unfold create_rel. rewrite IH. simpl. rewrite <- !app_assoc. reflexivity.
    + unfold ret. rewrite IH. reflexivity.
    + unfold ret. rewrite IH. reflexivity.
Qed.

(** A whole run of [store_in_graphdb]. *)
Lemma store_in_graphdb_run a ed w :
  let art := article_of a w in
  let ns := map snd (bindings (entities ed) w) in
  let m := flattened (entities ed) w in
  let es := omap (edge_of m) (relationships ed) in
  store_in_graphdb a ed w =
  (mkOutcome art m (size m) (length (relationships ed)),
   mkWorld (S (next_id w) + length ns)
     (art :: ns)
     (map (mentions art) ns ++ es)
     (calls w ++ DeleteAll :: CreateNode art ::
        flat_map (entity_calls art) ns ++ map CreateRel es)).
Proof.
  intros art ns m es. unfold store_in_graphdb, bind, delete_all, new_node, create_node.
  simpl. unfold store_entities. rewrite store_entities_pairs, store_pairs_run.
  simpl. rewrite dom_empty_L. fold (bindings (entities ed) w).
  fold (flattened (entities ed) w). fold m.
  rewrite store_relations_run. simpl. unfold ret. fold ns. fold es. fold art.
  f_equal. f_equal.
  - unfold ns. rewrite length_map. reflexivity.
  - rewrite <- !app_assoc. reflexivity.
Qed.

(** *** The pairs that make a node *)

Lemma first_seen_spec seen ps :
  NoDup (map snd (first_seen seen ps)) ∧
  ∀ n, n ∈ map snd (first_seen seen ps) ↔ n ∈ map snd ps ∧ n ∉ seen.
Proof.
  revert seen. induction ps as [|[ty n0] ps IH]; intros seen; simpl.
  - split; [constructor|]. intros n. rewrite elem_of_nil. tauto.
  - destruct (decide (n0 ∈ seen)) as [Hin|Hout].
    + destruct (IH seen) as [Hnd Hmem]. split; [exact Hnd|].
      intros n. rewrite Hmem, elem_of_cons. split; [tauto|].
      intros [[->|H] Hn]; tauto.
    + destruct (IH ({[n0]} ∪ seen)) as [Hnd Hmem]. simpl. split.
      * constructor; [|exact Hnd]. rewrite Hmem. set_solver.
      * intros n. rewrite !elem_of_cons, Hmem.
        destruct (decide (n = n0)) as [->|Hne]; set_solver.
  Qed.

Lemma first_seen_sub seen ps p : p ∈ first_seen seen ps → p ∈ ps.
Proof.
  revert seen. induction ps as [|q ps IH]; intros seen; simpl.
  - auto.
  - destruct (decide (snd q ∈ seen)); rewrite ?elem_of_cons; naive_solver.
Qed.

(** The first pair of a name is the one that makes its node. *)
Lemma first_seen_first seen pre ty n post :
  n ∉ seen → n ∉ map snd pre →
  (ty, n) ∈ first_seen seen (pre ++ (ty, n) :: post).
Proof.
  revert seen. induction pre as [|q pre IH]; intros seen Hs Hp; simpl.
  - destruct (decide (n ∈ seen)); [tauto|]. left.
  - simpl in Hp. apply not_elem_of_cons in Hp as [Hq Hp].
    destruct (decide (snd q ∈ seen)).
    + apply IH; assumption.
    + right. apply IH; [set_solver|assumption].
Qed.

(** *** The nodes made for them *)

Lemma named_fst base ps : map fst (named base ps) = map snd ps.
Proof.
  revert base. induction ps as [|p ps IH]; intros base; simpl; [|rewrite IH]; reflexivity.
Qed.

Lemma named_length base ps : length (named base ps) = length ps.
Proof.
  revert base. induction ps as [|p ps IH]; intros base; simpl; [|rewrite IH]; reflexivity.
Qed.

Lemma named_elem base ps b :
  b ∈ named base ps →
  (base ≤ node_id (snd b))%nat ∧ node_props (snd b) = [("name", fst b)] ∧
  (node_label (snd b), fst b) ∈ ps.
Proof.
  revert base. induction ps as [|[ty n] ps IH]; intros base; simpl.
  - intros H. inversion H.
  - rewrite elem_of_cons. intros [->|H]; simpl.
    + repeat split; [lia|left].
    + destruct (IH _ H) as (Hid & Hp & Hl). repeat split; [lia|assumption|right; assumption].
Qed.

Lemma named_of_pair base ps ty n :
  (ty, n) ∈ ps → ∃ nd, (n, nd) ∈ named base ps ∧ node_label nd = ty.
Proof.
  revert base. induction ps as [|q ps IH]; intros base; simpl.
  - intros H. inversion H.
  - rewrite elem_of_cons. intros [<-|H].
    + eexists. split; [left|reflexivity].
    + destruct (IH (S base) H) as (nd & Hin & Hl). exists nd. split; [right|]; assumption.
Qed.

(** *** The mapping they are filed in *)

Lemma file_all_dom m bs :
  dom (foldl file m bs) = list_to_set (map fst bs) ∪ dom m.
Proof.
  revert m. induction bs as [|b bs IH]; intros m; simpl.
  - set_solver.
  - rewrite IH. unfold file. rewrite dom_insert_L. set_solver.
Qed.

Lemma file_all_lookup m bs k nd :
  NoDup (map fst bs) →
  (foldl file m bs !! k = Some nd ↔
   (k, nd) ∈ bs ∨ ((k ∉ map fst bs) ∧ m !! k = Some nd)).
Proof.
  revert m. induction bs as [|[k0 n0] bs IH]; intros m Hnd; simpl.
  - rewrite elem_of_nil. split; [intros H; right; split; [apply not_elem_of_nil|exact H]|].
    intros [[]|[_ H]]. exact H.
  - simpl in Hnd. apply NoDup_cons in Hnd as [Hk0 Hnd].
    rewrite (IH _ Hnd). unfold file. simpl.
    rewrite not_elem_of_cons, !elem_of_cons.
    destruct (decide (k = k0)) as [->|Hne].
    + rewrite lookup_insert_eq. split.
      * intros [Hin|[_ Heq]].
        -- exfalso. apply Hk0. apply list_elem_of_fmap. exists (k0, nd). split; [reflexivity|exact Hin].
        -- left. left. congruence.
      * intros [[Heq|Hin]|[[Hne _] _]]; [|left; exact Hin|congruence].
        right. split; [exact Hk0|congruence].
    + rewrite lookup_insert_ne by congruence. split.
      * intros [Hin|[Hk Hm]]; [left; right; exact Hin|right; tauto].
      * intros [[Heq|Hin]|[[_ Hk] Hm]]; [congruence|left; exact Hin|right; tauto].
Qed.

Lemma bindings_NoDup ents w : NoDup (map fst (bindings ents w)).
Proof.
  unfold bindings. rewrite named_fst. apply first_seen_spec.
Qed.

Lemma bindings_names ents w n :
  n ∈ map fst (bindings ents w) ↔ n ∈ names ents.
Proof.
  unfold bindings, names. rewrite named_fst.
  destruct (first_seen_spec ∅ (pairs ents)) as [_ H]. rewrite H. set_solver.
Qed.

(** The flattened mapping binds a name to a node exactly when the
    binding was made by the loops. *)
Lemma flattened_lookup ents w n nd :
  flattened ents w !! n = Some nd ↔ (n, nd) ∈ bindings ents w.
Proof.
  unfold flattened. rewrite file_all_lookup by apply bindings_NoDup.
  rewrite lookup_empty. split; [intros [H|[_ H]]; [exact H|discriminate]|auto].
Qed.

(** Its keys are the surface names of the entity mapping. *)
Lemma flattened_dom ents w : dom (flattened ents w) = list_to_set (names ents).
Proof.
  unfold flattened. rewrite file_all_dom, dom_empty_L. apply set_eq. intros n.
  rewrite elem_of_union, !elem_of_list_to_set, bindings_names, elem_of_empty.
  tauto.
Qed.

Lemma flattened_size ents w :
  size (flattened ents w) = length (bindings ents w).
Proof.
  rewrite <- size_dom. unfold flattened. rewrite file_all_dom, dom_empty_L.
  rewrite (right_id_L ∅ (∪)). rewrite size_list_to_set by apply bindings_NoDup.
  apply length_map.
Qed.

(** The article node is none of the entity nodes. *)
Lemma article_not_bound a ents w b :
  b ∈ bindings ents w → snd b ≠ article_of a w.
Proof.
  intros Hb Heq. apply named_elem in Hb as (Hid & _).
  rewrite Heq in Hid. simpl in Hid. lia.
Qed.

(** *** The store after a run *)

Lemma filter_keep_all {A} (P : A → Prop) `{∀ x, Decision (P x)} (l : list A) :
  Forall P l → filter P l = l.
Proof.
  induction 1 as [|x l Hx _ IH]; [reflexivity|].
  rewrite filter_cons, decide_True by exact Hx. rewrite IH. reflexivity.
Qed.

Lemma filter_drop_all {A} (P : A → Prop) `{∀ x, Decision (P x)} (l : list A) :
  Forall (λ x, ¬ P x) l → filter P l = [].
Proof.
  induction 1 as [|x l Hx _ IH]; [reflexivity|].
  rewrite filter_cons, decide_False by exact Hx. exact IH.
Qed.

Lemma edge_of_Some m rel r :
  edge_of m rel = Some r →
  m !! rel.1.1 = Some (start_node r) ∧ rel_type r = rel.1.2 ∧
  m !! rel.2 = Some (end_node r).
Proof.
  destruct rel as [[s p] o]. simpl.
  destruct (m !! s) as [ns|]; [destruct (m !! o) as [no|]|]; try discriminate.
  intros [= <-]. simpl. auto.
Qed.

Lemma edge_of_bound m s p o ns no :
  m !! s = Some ns → m !! o = Some no → edge_of m (s, p, o) = Some (mkRel ns p no).
Proof. intros Hs Ho. simpl. rewrite Hs, Ho. reflexivity. Qed.

Lemma edge_of_None m s p o :
  edge_of m (s, p, o) = None ↔ m !! s = None ∨ m !! o = None.
Proof.
  simpl. destruct (m !! s) as [ns|]; [destruct (m !! o) as [no|]|];
    split; intros H; try discriminate; auto; destruct H; discriminate.
Qed.

Lemma eval_run a ed w :
  eval (store_in_graphdb a ed) w =
  mkOutcome (article_of a w) (flattened (entities ed) w)
    (size (flattened (entities ed) w)) (length (relationships ed)).
Proof. unfold eval. rewrite store_in_graphdb_run. reflexivity. Qed.

Lemma store_nodes_run a ed w :
  store_nodes (exec (store_in_graphdb a ed) w) =
  article_of a w :: map snd (bindings (entities ed) w).
Proof. unfold exec. rewrite store_in_graphdb_run. reflexivity. Qed.

Lemma store_rels_run a ed w :
  store_rels (exec (store_in_graphdb a ed) w) =
  map (mentions (article_of a w)) (map snd (bindings (entities ed) w)) ++
  omap (edge_of (flattened (entities ed) w)) (relationships ed).
Proof. unfold exec. rewrite store_in_graphdb_run. reflexivity. Qed.

Lemma calls_run a ed w :
  calls (exec (store_in_graphdb a ed) w) =
  calls w ++ DeleteAll :: CreateNode (article_of a w) ::
    flat_map (entity_calls (article_of a w)) (map snd (bindings (entities ed) w)) ++
    map CreateRel (omap (edge_of (flattened (entities ed) w)) (relationships ed)).
Proof. unfold exec. rewrite store_in_graphdb_run. reflexivity. Qed.

Lemma next_id_run a ed w :
  next_id (exec (store_in_graphdb a ed) w) =
  S (next_id w) + length (bindings (entities ed) w).
Proof. unfold exec. rewrite store_in_graphdb_run. simpl. rewrite length_map. reflexivity. Qed.

(** The entity nodes of the store are the nodes the loops made. *)
Lemma entity_nodes_of_run a ed w :
  entity_nodes_of (article_of a w) (exec (store_in_graphdb a ed) w) =
  map snd (bindings (entities ed) w).
Proof.
  unfold entity_nodes_of. rewrite store_nodes_run.
  rewrite filter_cons, decide_False by (intros H; apply H; reflexivity).
  apply filter_keep_all. apply Forall_forall. intros nd Hnd.
  apply list_elem_of_fmap in Hnd as (b & -> & Hb).
  eapply article_not_bound; eassumption.
Qed.

(** The entity-to-entity edges of the store are the edges of the triples. *)
Lemma entity_edges_run a ed w :
  entity_edges (article_of a w) (exec (store_in_graphdb a ed) w) =
  omap (edge_of (flattened (entities ed) w)) (relationships ed).
Proof.
  unfold entity_edges. rewrite store_rels_run, filter_app.
  rewrite filter_drop_all, filter_keep_all; [reflexivity| |].
  - apply Forall_forall. intros r Hr.
    apply list_elem_of_omap in Hr as (rel & _ & Hr).
    apply edge_of_Some in Hr as (Hs & _ & _).
    apply flattened_lookup in Hs. eapply article_not_bound in Hs. exact Hs.
  - apply Forall_forall. intros r Hr.
    apply list_elem_of_fmap in Hr as (nd & -> & _). simpl. tauto.
Qed.

(** A triple with a missing end leaves no edge, so the edges are as
    many as the triples with both ends in the mapping. *)
Lemma edges_count m rels :
  length (omap (edge_of m) rels) = length (filter (both_keys m) rels).
Proof.
  induction rels as [|[[s p] o] rels IH]; [reflexivity|].
  rewrite filter_cons. simpl omap. unfold both_keys at 1. simpl.
  destruct (m !! s) as [ns|] eqn:Hs; [destruct (m !! o) as [no|] eqn:Ho|].
  - rewrite decide_True; [simpl; f_equal; exact IH|].
    split; apply elem_of_dom; eauto.
  - rewrite decide_False; [exact IH|].
    intros [_ H]. apply elem_of_dom in H as [? H]. simpl in H. congruence.
  - rewrite decide_False; [exact IH|].
    intros [H _]. apply elem_of_dom in H as [? H]. simpl in H. congruence.
Qed.

(** Among nodes filed under distinct names, one carries a given name. *)
Lemma one_node_per_name bs n nd :
  NoDup (map fst bs) →
  (∀ b, b ∈ bs → node_props (snd b) = [("name", fst b)]) →
  (n, nd) ∈ bs →
  filter (λ x, node_props x = [("name", n)]) (map snd bs) = [nd].
Proof.
  induction bs as [|[k x] bs IH]; intros Hnd Hp Hin.
  - inversion Hin.
  - simpl in Hnd. apply NoDup_cons in Hnd as [Hk Hnd].
    simpl map. rewrite filter_cons.
    assert (Hx : node_props x = [("name", k)]) by (apply (Hp (k, x)); left).
    apply elem_of_cons in Hin as [Heq|Hin].
    + injection Heq as -> ->. rewrite decide_True by exact Hx. f_equal.
      apply filter_drop_all, Forall_forall. intros y Hy Hyn.
      apply list_elem_of_fmap in Hy as ([k' y'] & -> & Hb).
      rewrite (Hp _ (list_elem_of_further _ _ _ Hb)) in Hyn. simpl in Hyn.
      injection Hyn as ->. apply Hk.
      apply list_elem_of_fmap. exists (k, y'). split; [reflexivity|exact Hb].
    + rewrite decide_False.
      * apply IH; [exact Hnd| |exact Hin]. intros b Hb. apply Hp. right. exact Hb.
      * rewrite Hx. intros [= ->]. apply Hk.
        apply list_elem_of_fmap. exists (n, nd). split; [reflexivity|exact Hin].
Qed.

(** *** Two runs in a row *)

Lemma named_id_lt base ps b :
  b ∈ named base ps → node_id (snd b) < base + length ps.
Proof.
  revert base. induction ps as [|p ps IH]; intros base; simpl.
  - intros H. inversion H.
  - rewrite elem_of_cons. intros [->|H]; simpl; [lia|].
    apply IH in H. lia.
Qed.

Lemma named_data b1 b2 ps :
  map (λ b, node_data (snd b)) (named b1 ps) = map (λ b, node_data (snd b)) (named b2 ps).
Proof.
  revert b1 b2. induction ps as [|p ps IH]; intros b1 b2; simpl.
  - reflexivity.
  - f_equal. apply IH.
Qed.

Lemma file_all_data ps b1 b2 (m1 m2 : gmap string Node) :
  (∀ k, node_data <$> m1 !! k = node_data <$> m2 !! k) →
  ∀ k, node_data <$> foldl file m1 (named b1 ps) !! k =
       node_data <$> foldl file m2 (named b2 ps) !! k.
Proof.
  revert b1 b2 m1 m2. induction ps as [|p ps IH]; intros b1 b2 m1 m2 Hm; simpl.
  - exact Hm.
  - apply IH. intros k. unfold file. simpl.
    destruct (decide (snd p = k)) as [->|Hne].
    + rewrite !lookup_insert_eq. reflexivity.
    + rewrite !lookup_insert_ne by exact Hne. apply Hm.
Qed.

Lemma edges_data (m1 m2 : gmap string Node) rels :
  (∀ k, node_data <$> m1 !! k = node_data <$> m2 !! k) →
  map rel_data (omap (edge_of m1) rels) = map rel_data (omap (edge_of m2) rels).
Proof.
  intros Hm. induction rels as [|[[s p] o] rels IH]; [reflexivity|].
  simpl. pose proof (Hm s) as Hs. pose proof (Hm o) as Ho.
  destruct (m1 !! s) as [s1|], (m2 !! s) as [s2|]; try discriminate;
    destruct (m1 !! o) as [o1|], (m2 !! o) as [o2|]; try discriminate;
    simpl; try exact IH.
  f_equal; [|exact IH]. unfold rel_data. simpl. simpl in Hs, Ho. congruence.
Qed.

Lemma created_nodes_cycle art ns es :
  created_nodes (flat_map (entity_calls art) ns ++ map CreateRel es) = ns.
Proof.
  induction ns as [|n ns IH]; simpl.
  - induction es as [|e es IH]; simpl; [reflexivity|exact IH].
  - f_equal. exact IH.
Qed.

Lemma created_rels_cycle art ns es :
  created_rels (flat_map (entity_calls art) ns ++ map CreateRel es) =
  map (mentions art) ns ++ es.
Proof.
  induction ns as [|n ns IH]; simpl.
  - induction es as [|e es IH]; simpl; [reflexivity|f_equal; exact IH].
  - f_equal. exact IH.
Qed.

Lemma writes_entity_calls art ns :
  forallb is_write (flat_map (entity_calls art) ns) = true.
Proof. induction ns as [|n ns IH]; simpl; [|rewrite IH]; reflexivity. Qed.

Lemma writes_rels es : forallb is_write (map CreateRel es) = true.
Proof. induction es as [|e es IH]; simpl; [|rewrite IH]; reflexivity. Qed.

(** The calls of one run: the clear, then writes only, which create
    what the store holds after the run. *)
Lemma cycle a ed w :
  let w' := exec (store_in_graphdb a ed) w in
  ∃ ws, calls w' = calls w ++ DeleteAll :: ws ∧
        forallb is_write ws = true ∧
        store_nodes w' = created_nodes ws ∧
        store_rels w' = created_rels ws.
Proof.
  simpl. rewrite calls_run, store_nodes_run, store_rels_run.
  eexists. split; [reflexivity|]. split; [|split].
  - simpl. rewrite forallb_app, writes_entity_calls, writes_rels. reflexivity.
  - simpl. f_equal. symmetry. apply created_nodes_cycle.
  - simpl. symmetry. apply created_rels_cycle.
Qed.

End MaterializerFacts.

(** ** The materializer's claims *)

Section MaterializerClaims.
Import Neo Materializer MaterializerSpec MaterializerFacts Scenarios.

(** C1, on the code: in the scenario of the claim, for every article and
    every prior store, the run creates two entity nodes and no
    entity-to-entity edge, yet the message of line 118 reports one
    relationship: the number it prints is the length of the triple
    list, not the number of edges created. *)
Theorem scenario_reports_uncreated_edge (a : ArticleData) (w : World) :
  let out := eval (store_in_graphdb a acme_entities) w in
  let w' := exec (store_in_graphdb a acme_entities) w in
  entity_edges (article_node out) w' = [] ∧
  length (entity_nodes_of (article_node out) w') = 2 ∧
  stored_entities out = 2 ∧
  stored_relationships out = 1.
Proof.
  simpl. rewrite eval_run. simpl article_node.
  rewrite entity_edges_run, entity_nodes_of_run.
  repeat split.
Qed.

(** What line 118 prints in general: the length of the triple list,
    whatever the number of edges made. *)
Lemma stored_relationships_counts_triples (a : ArticleData) (ed : EntityData) (w : World) :
  let out := eval (store_in_graphdb a ed) w in
  let w' := exec (store_in_graphdb a ed) w in
  stored_relationships out = length (relationships ed) ∧
  length (entity_edges (article_node out) w') =
    length (filter (both_keys (entity_nodes out)) (relationships ed)).
Proof.
  simpl. rewrite eval_run. simpl. rewrite entity_edges_run.
  split; [reflexivity|apply edges_count].
Qed.

(** C2, as stated, fails: with "Apple" under "ORG" and then under
    "PRODUCT", the pair processed last is ("PRODUCT", "Apple"), and the
    one node made for "Apple" is labelled "ORG". *)
Lemma apple_keeps_first_type :
  let out := eval (store_in_graphdb some_article apple_entities) empty_world in
  let w' := exec (store_in_graphdb some_article apple_entities) empty_world in
  last (pairs (entities apple_entities)) = Some ("PRODUCT", "Apple") ∧
  node_label <$> entity_nodes out !! "Apple" = Some "ORG" ∧
  map node_label (entity_nodes_of (article_node out) w') = ["ORG"].
Proof. vm_compute. repeat split. Qed.

(** C2, amended: when a name appears under two different types, one
    node is made for it, the mapping binds the name to that node, the
    node carries the type of the pair processed first, and the name
    counts once in the number of entities reported. *)
Theorem repeated_name_keeps_first_type
    (a : ArticleData) (ed : EntityData) (w : World)
    (pre post : list (string * string)) (t1 t2 n : string) :
  pairs (entities ed) = pre ++ (t1, n) :: post →
  n ∉ map snd pre →
  (t2, n) ∈ post →
  t1 ≠ t2 →
  let out := eval (store_in_graphdb a ed) w in
  let w' := exec (store_in_graphdb a ed) w in
  ∃ nd,
    entity_nodes out !! n = Some nd ∧
    filter (λ x, node_props x = [("name", n)])
           (entity_nodes_of (article_node out) w') = [nd] ∧
    node_label nd = t1 ∧ node_label nd ≠ t2 ∧
    stored_entities out = size (list_to_set (names (entities ed)) : gset string).
Proof.
  intros Hpairs Hpre _ Hne. simpl. rewrite eval_run. simpl.
  rewrite entity_nodes_of_run.
  assert (Hfirst : (t1, n) ∈ first_seen ∅ (pairs (entities ed))).
  { rewrite Hpairs. apply first_seen_first; [apply not_elem_of_empty|exact Hpre]. }
  destruct (named_of_pair (S (next_id w)) _ _ _ Hfirst) as (nd & Hin & Hl).
  fold (bindings (entities ed) w) in Hin.
  exists nd. repeat split.
  - apply flattened_lookup. exact Hin.
  - apply one_node_per_name; [apply bindings_NoDup| |exact Hin].
    intros b Hb. apply named_elem in Hb. tauto.
  - exact Hl.
  - rewrite Hl. exact Hne.
  - rewrite <- flattened_dom with (w := w). symmetry. apply size_dom.
Qed.

Lemma repeated_name_keeps_first_type_witness :
  ∃ nd,
    entity_nodes (eval (store_in_graphdb some_article apple_entities) empty_world)
      !! "Apple" = Some nd ∧
    node_label nd = "ORG".
Proof.
  destruct (repeated_name_keeps_first_type some_article apple_entities empty_world
              [] [("PRODUCT", "Apple")] "ORG" "PRODUCT" "Apple")
    as (nd & Hm & _ & Hl & _).
  - reflexivity.
  - apply not_elem_of_nil.
  - left.
  - discriminate.
  - exists nd. split; [exact Hm|exact Hl].
Defined.

(** C5: the number of entities reported is the number of distinct
    surface names of the mapping, as many entity nodes are in the
    store, and each name has exactly one node there. *)
Theorem entity_count_is_distinct_names
    (a : ArticleData) (ed : EntityData) (w : World) :
  let out := eval (store_in_graphdb a ed) w in
  let created := entity_nodes_of (article_node out) (exec (store_in_graphdb a ed) w) in
  let distinct : gset string := list_to_set (names (entities ed)) in
  stored_entities out = size distinct ∧
  length created = size distinct ∧
  size distinct = length (remove_dups (names (entities ed))) ∧
  (∀ n, n ∈ names (entities ed) →
        ∃ nd, filter (λ x, node_props x = [("name", n)]) created = [nd]) ∧
  (∀ nd, nd ∈ created →
         ∃ n, n ∈ names (entities ed) ∧ node_props nd = [("name", n)]).
Proof.
  simpl. rewrite eval_run. simpl. rewrite entity_nodes_of_run.
  rewrite <- (flattened_dom _ w), size_dom, length_map.
  repeat split.
  - symmetry. apply flattened_size.
  - rewrite <- size_dom, flattened_dom.
    rewrite <- (size_list_to_set (C := gset string) (remove_dups (names (entities ed))))
      by apply NoDup_remove_dups.
    f_equal. apply set_eq. intros n.
    rewrite !elem_of_list_to_set, elem_of_remove_dups. reflexivity.
  - intros n Hn. apply bindings_names with (w := w) in Hn.
    apply list_elem_of_fmap in Hn as ([k nd] & -> & Hb). exists nd.
    apply one_node_per_name; [apply bindings_NoDup| |exact Hb].
    intros b Hb'. apply named_elem in Hb'. tauto.
  - intros nd Hnd. apply list_elem_of_fmap in Hnd as ([k x] & -> & Hb).
    exists k. split.
    + apply (bindings_names _ w). apply list_elem_of_fmap. exists (k, x). auto.
    + apply named_elem in Hb. tauto.
Qed.

Lemma entity_count_is_distinct_names_witness :
  stored_entities (eval (store_in_graphdb some_article apple_entities) empty_world) = 1 ∧
  ∃ nd, filter (λ x, node_props x = [("name", "Apple")])
          (entity_nodes_of
             (article_node (eval (store_in_graphdb some_article apple_entities) empty_world))
             (exec (store_in_graphdb some_article apple_entities) empty_world)) = [nd].
Proof.
  destruct (entity_count_is_distinct_names some_article apple_entities empty_world)
    as (Hcount & _ & _ & Hone & _).
  split.
  - rewrite Hcount. vm_compute. reflexivity.
  - apply Hone. vm_compute. left.
Defined.

(** C3: the keys of the mapping are the surface names of the entity
    mapping, and for a triple of the relation list an edge labelled by
    its predicate, from the node named by its subject to the node named
    by its object, is in the store exactly when subject and object are
    both keys; the edge then joins the nodes the mapping binds them to;
    a triple with a side missing leaves the store as it was; and every
    entity-to-entity edge of the store comes from a triple of the list
    with both sides present. *)
Theorem edge_iff_both_keys
    (a : ArticleData) (ed : EntityData) (w : World) (s p o : string) :
  (s, p, o) ∈ relationships ed →
  let out := eval (store_in_graphdb a ed) w in
  let w' := exec (store_in_graphdb a ed) w in
  let m := entity_nodes out in
  let edges := entity_edges (article_node out) w' in
  dom m = list_to_set (names (entities ed)) ∧
  ((∃ r, r ∈ edges ∧ rel_type r = p ∧
         node_props (start_node r) = [("name", s)] ∧
         node_props (end_node r) = [("name", o)])
   ↔ s ∈ dom m ∧ o ∈ dom m) ∧
  (∀ ns no, m !! s = Some ns → m !! o = Some no → mkRel ns p no ∈ edges) ∧
  (s ∉ dom m ∨ o ∉ dom m → ∀ w0, store_relation m tt (s, p, o) w0 = (tt, w0)) ∧
  (∀ r, r ∈ edges →
        ∃ s' p' o', (s', p', o') ∈ relationships ed ∧ both_keys m (s', p', o') ∧
                    m !! s' = Some (start_node r) ∧ rel_type r = p' ∧
                    m !! o' = Some (end_node r)).
Proof.
  intros Hin. simpl. rewrite eval_run. simpl. rewrite entity_edges_run.
  set (m := flattened (entities ed) w).
  assert (Hbound : ∀ ns no, m !! s = Some ns → m !! o = Some no →
            mkRel ns p no ∈ omap (edge_of m) (relationships ed)).
  { intros ns no Hs Ho. apply list_elem_of_omap. exists (s, p, o).
    split; [exact Hin|apply edge_of_bound; assumption]. }
  assert (Hname : ∀ k nd, m !! k = Some nd → node_props nd = [("name", k)]).
  { intros k nd Hk. apply flattened_lookup, named_elem in Hk. tauto. }
  split; [apply flattened_dom|]. split; [|split; [exact Hbound|split]].
  - split.
    + intros (r & Hr & _ & Hs & Ho).
      apply list_elem_of_omap in Hr as (rel & _ & Hr).
      apply edge_of_Some in Hr as (Hs' & _ & Ho').
      pose proof (Hname _ _ Hs') as Hs''. pose proof (Hname _ _ Ho') as Ho''.
      rewrite Hs in Hs''. rewrite Ho in Ho''.
      injection Hs'' as Hs''. injection Ho'' as Ho''.
      split; apply elem_of_dom; [exists (start_node r)|exists (end_node r)]; congruence.
    + intros [Hs Ho]. apply elem_of_dom in Hs as [ns Hs]. apply elem_of_dom in Ho as [no Ho].
      exists (mkRel ns p no). simpl. repeat split; eauto.
  - intros Hmiss w0. unfold store_relation.
    destruct (m !! s) as [ns|] eqn:Hs; [destruct (m !! o) as [no|] eqn:Ho|]; try reflexivity.
    exfalso. destruct Hmiss as [H|H]; apply H, elem_of_dom; eauto.
  - intros r Hr. apply list_elem_of_omap in Hr as ([[s' p'] o'] & Hrel & Hr).
    apply edge_of_Some in Hr as (Hs & Hp & Ho). simpl in Hs, Hp, Ho.
    exists s', p', o'. repeat split; try assumption; apply elem_of_dom; eauto.
Qed.

Lemma edge_iff_both_keys_witness :
  (∃ r, r ∈ entity_edges
              (article_node (eval (store_in_graphdb some_article acme_announces) empty_world))
              (exec (store_in_graphdb some_article acme_announces) empty_world) ∧
        rel_type r = "ACQUIRE" ∧
        node_props (start_node r) = [("name", "Acme")] ∧
        node_props (end_node r) = [("name", "Initech")]) ∧
  ∀ w0, store_relation
          (entity_nodes (eval (store_in_graphdb some_article acme_announces) empty_world))
          tt ("Acme", "ANNOUNCE", "profits") w0 = (tt, w0).
Proof.
  split.
  - destruct (edge_iff_both_keys some_article acme_announces empty_world
                "Acme" "ACQUIRE" "Initech") as (_ & Hiff & _).
    + left.
    + apply Hiff. split; apply elem_of_dom; vm_compute; eauto.
  - destruct (edge_iff_both_keys some_article acme_announces empty_world
                "Acme" "ANNOUNCE" "profits") as (_ & _ & _ & Hskip & _).
    + right. left.
    + apply Hskip. right. intros H. apply elem_of_dom in H as [nd H].
      vm_compute in H. discriminate H.
Defined.

(** C7: both ends of every entity-to-entity edge of the store are nodes
    of the store, made for a name of the entity mapping, and the target
    of a MENTIONS edge from the article node. *)
Theorem relation_endpoints_mentioned
    (a : ArticleData) (ed : EntityData) (w : World) (r : Relationship) :
  r ∈ entity_edges (article_node (eval (store_in_graphdb a ed) w))
                   (exec (store_in_graphdb a ed) w) →
  let out := eval (store_in_graphdb a ed) w in
  let w' := exec (store_in_graphdb a ed) w in
  ∀ e, e = start_node r ∨ e = end_node r →
    e ∈ store_nodes w' ∧
    mkRel (article_node out) "MENTIONS" e ∈ store_rels w' ∧
    ∃ n, n ∈ names (entities ed) ∧ entity_nodes out !! n = Some e.
Proof.
  simpl. rewrite eval_run. simpl. rewrite entity_edges_run.
  intros Hr e He.
  apply list_elem_of_omap in Hr as (rel & _ & Hr).
  apply edge_of_Some in Hr as (Hs & _ & Ho).
  assert (∃ n, flattened (entities ed) w !! n = Some e) as [n Hn].
  { destruct He as [->| ->]; eauto. }
  pose proof Hn as Hb. apply flattened_lookup in Hb.
  rewrite store_nodes_run, store_rels_run. repeat split.
  - right. apply list_elem_of_fmap. exists (n, e). auto.
  - apply elem_of_app. left. apply list_elem_of_fmap. exists e. split; [reflexivity|].
    apply list_elem_of_fmap. exists (n, e). auto.
  - exists n. split; [|exact Hn].
    apply (bindings_names _ w). apply list_elem_of_fmap. exists (n, e). auto.
Qed.

Lemma relation_endpoints_mentioned_witness :
  ∃ acme initech,
    let out := eval (store_in_graphdb some_article acme_announces) empty_world in
    let w' := exec (store_in_graphdb some_article acme_announces) empty_world in
    entity_nodes out !! "Acme" = Some acme ∧
    entity_nodes out !! "Initech" = Some initech ∧
    mkRel (article_node out) "MENTIONS" acme ∈ store_rels w' ∧
    mkRel (article_node out) "MENTIONS" initech ∈ store_rels w'.
Proof.
  exists (mkNode 1 "ORG" [("name", "Acme")]), (mkNode 2 "ORG" [("name", "Initech")]).
  assert (Hr : mkRel (mkNode 1 "ORG" [("name", "Acme")]) "ACQUIRE"
                     (mkNode 2 "ORG" [("name", "Initech")]) ∈
               entity_edges
                 (article_node (eval (store_in_graphdb some_article acme_announces) empty_world))
                 (exec (store_in_graphdb some_article acme_announces) empty_world)).
  { vm_compute. left. }
  pose proof (relation_endpoints_mentioned _ _ _ _ Hr) as H. simpl in H.
  split; [vm_compute; reflexivity|]. split; [vm_compute; reflexivity|].
  split.
  - apply (H (mkNode 1 "ORG" [("name", "Acme")])). left. reflexivity.
  - apply (H (mkNode 2 "ORG" [("name", "Initech")])). right. reflexivity.
Defined.

(** C9: the calls a run makes on the store are the clear and then
    writes only, and the store after the run holds exactly what those
    writes created, whatever it held before.  Hence a second run on the
    same article clears what the first one stored and creates it anew:
    nodes and edges with the same labels and properties, none of them a
    node of the first run. *)
Theorem clear_precedes_writes (a : ArticleData) (ed : EntityData) (w : World) :
  let w1 := exec (store_in_graphdb a ed) w in
  let w2 := exec (store_in_graphdb a ed) w1 in
  (∃ ws, calls w1 = calls w ++ DeleteAll :: ws ∧
         forallb is_write ws = true ∧
         store_nodes w1 = created_nodes ws ∧
         store_rels w1 = created_rels ws) ∧
  (∃ ws, calls w2 = calls w1 ++ DeleteAll :: ws ∧
         forallb is_write ws = true ∧
         store_nodes w2 = created_nodes ws ∧
         store_rels w2 = created_rels ws) ∧
  map node_data (store_nodes w2) = map node_data (store_nodes w1) ∧
  map rel_data (store_rels w2) = map rel_data (store_rels w1) ∧
  (∀ n, n ∈ store_nodes w2 → n ∉ store_nodes w1) ∧
  store_nodes w2 ≠ store_nodes w1.
Proof.
  intros w1 w2.
  assert (Hfresh : ∀ n, n ∈ store_nodes w2 → n ∉ store_nodes w1).
  { intros n H2 H1. unfold w2 in H2. rewrite store_nodes_run in H2.
    assert (Hlo : next_id w1 ≤ node_id n).
    { apply elem_of_cons in H2 as [->|H2]; [simpl; lia|].
      apply list_elem_of_fmap in H2 as (b & -> & Hb).
      apply named_elem in Hb. lia. }
    assert (Hhi : node_id n < next_id w1).
    { unfold w1 in H1 |- *. rewrite next_id_run. rewrite store_nodes_run in H1.
      apply elem_of_cons in H1 as [->|H1]; [simpl; lia|].
      apply list_elem_of_fmap in H1 as (b & -> & Hb).
      pose proof (named_id_lt _ _ _ Hb) as Hlt. unfold bindings.
      rewrite named_length. lia. }
    lia. }
  split; [apply cycle|]. split; [apply cycle|]. split; [|split; [|split]].
  - subst w1 w2. rewrite !store_nodes_run.
    simpl. f_equal. rewrite !map_map. apply named_data.
  - subst w1 w2. rewrite !store_rels_run.
    rewrite !map_app. f_equal.
    + rewrite !map_map. unfold rel_data. simpl.
      rewrite <- !(map_map (λ b, node_data (snd b))
                     (λ d, (node_data (article_of a _), "MENTIONS", d))).
      unfold bindings.
      rewrite (named_data (S (next_id (exec (store_in_graphdb a ed) w))) (S (next_id w))).
      reflexivity.
    + apply edges_data. apply file_all_data. reflexivity.
  - exact Hfresh.
  - intros Heq. apply (Hfresh (article_of a w1)).
    + unfold w2. rewrite store_nodes_run. left.
    + rewrite <- Heq. unfold w2. rewrite store_nodes_run. left.
Qed.

Lemma clear_precedes_writes_witness :
  ∃ ws,
    calls (exec (store_in_graphdb some_article acme_announces) empty_world) =
      DeleteAll :: ws ∧
    forallb is_write ws = true ∧
    length (store_nodes (exec (store_in_graphdb some_article acme_announces) empty_world)) = 4.
Proof.
  destruct (clear_precedes_writes some_article acme_announces empty_world)
    as ((ws & Hcalls & Hwrites & Hnodes & _) & _).
  exists ws. split; [exact Hcalls|]. split; [exact Hwrites|].
  vm_compute. reflexivity.
Defined.

End MaterializerClaims.

(** ** What the analyzer extracts *)

Module AnalyzerFacts.
Import Spacy Materializer Analyzer AnalyzerSpec.

(** Induction on a token with its children. *)
Lemma Token_ind (P : Token → Prop) :
  (∀ tx lm dp ls rs, Forall P ls → Forall P rs → P (mkToken tx lm dp ls rs)) →
  ∀ t, P t.
Proof.
  intros H. fix IH 1. intros [tx lm dp ls rs]. apply H.
  - induction ls as [|l ls IHls]; constructor; [apply IH|exact IHls].
  - induction rs as [|r rs IHrs]; constructor; [apply IH|exact IHrs].
Qed.

Section RelationFacts.
Context (upper : string → string).

Lemma visit_children subject acc cs :
  foldl (visit_child upper subject) acc cs = acc ++ omap (child_triple upper subject) cs.
Proof.
  revert acc. induction cs as [|c cs IH]; intros acc; simpl.
  - rewrite app_nil_r. reflexivity.
  - rewrite IH. unfold visit_child, child_triple.
    destruct (bool_decide (dep_ c ∈ object_roles)); simpl.
    + rewrite <- app_assoc. reflexivity.
    + reflexivity.
Qed.

Lemma visit_token_triples acc token :
  visit_token upper acc token = acc ++ token_triples upper token.
Proof.
  unfold visit_token, token_triples.
  destruct (bool_decide (dep_ token ∈ subject_roles)).
  - apply visit_children.
  - rewrite app_nil_r. reflexivity.
Qed.

Lemma visit_sentence acc sent :
  foldl (visit_token upper) acc sent = acc ++ sentence_triples upper sent.
Proof.
  revert acc. induction sent as [|t sent IH]; intros acc; simpl.
  - rewrite app_nil_r. reflexivity.
  - rewrite IH, visit_token_triples, <- app_assoc. reflexivity.
Qed.

Lemma visit_sentences acc ss :
  foldl (λ relationships sent, foldl (visit_token upper) relationships sent) acc ss =
  acc ++ flat_map (sentence_triples upper) ss.
Proof.
  revert acc. induction ss as [|s ss IH]; intros acc; simpl.
  - rewrite app_nil_r. reflexivity.
  - rewrite IH, visit_sentence, <- app_assoc. reflexivity.
Qed.

(** The relation list is the triples of the sentences, one sentence
    after the other, and in a sentence one token after the other. *)
Lemma extract_relations_eq doc :
  extract_relations upper doc = flat_map (sentence_triples upper) (sents doc).
Proof. unfold extract_relations. apply visit_sentences. Qed.

Lemma elem_of_flat_map {A B} (f : A → list B) (l : list A) (y : B) :
  y ∈ flat_map f l ↔ ∃ x, x ∈ l ∧ y ∈ f x.
Proof.
  rewrite list_elem_of_In, in_flat_map. split.
  - intros (x & Hx & Hy). exists x. rewrite !list_elem_of_In. auto.
  - intros (x & Hx & Hy). exists x. rewrite <- !list_elem_of_In. auto.
Qed.

(** The triples of the relation list are those of the qualifying
    subject and child pairs of the sentences. *)
Lemma extract_relations_spec doc tr :
  tr ∈ extract_relations upper doc ↔
  ∃ sent token child,
    sent ∈ sents doc ∧ token ∈ sent ∧ dep_ token ∈ subject_roles ∧
    child ∈ children token ∧ dep_ child ∈ object_roles ∧
    tr = (Spacy.text token, upper (lemma_ child), object_text child).
Proof.
  rewrite extract_relations_eq, elem_of_flat_map. split.
  - intros (sent & Hsent & Htr). unfold sentence_triples in Htr.
    apply elem_of_flat_map in Htr as (token & Htok & Htr).
    unfold token_triples in Htr.
    destruct (bool_decide (dep_ token ∈ subject_roles)) eqn:Hsub; [|inversion Htr].
    apply bool_decide_eq_true in Hsub.
    apply list_elem_of_omap in Htr as (child & Hch & Htr).
    unfold child_triple in Htr.
    destruct (bool_decide (dep_ child ∈ object_roles)) eqn:Hobj; [|discriminate].
    apply bool_decide_eq_true in Hobj. injection Htr as <-.
    exists sent, token, child. auto 10.
  - intros (sent & token & child & Hsent & Htok & Hsub & Hch & Hobj & ->).
    exists sent. split; [exact Hsent|]. apply elem_of_flat_map.
    exists token. split; [exact Htok|]. unfold token_triples.
    rewrite bool_decide_eq_true_2 by exact Hsub.
    apply list_elem_of_omap. exists child. split; [exact Hch|].
    unfold child_triple. rewrite bool_decide_eq_true_2 by exact Hobj. reflexivity.
Qed.

End RelationFacts.

(** *** The walk of a subtree *)

Lemma subtree_unfold t :
  subtree t = flat_map subtree (lefts t) ++ t :: flat_map subtree (rights t).
Proof. destruct t. reflexivity. Qed.

Lemma subtree_self t : t ∈ subtree t.
Proof. rewrite subtree_unfold. apply elem_of_app. right. left. Qed.

Lemma flat_map_infix {A B} (f : A → list B) (l : list A) (x : A) :
  x ∈ l → ∃ l1 l2, flat_map f l = l1 ++ f x ++ l2.
Proof.
  intros Hx. apply list_elem_of_split in Hx as (a & b & ->).
  exists (flat_map f a), (flat_map f b). rewrite flat_map_app. reflexivity.
Qed.

(** The walk of a token of a subtree is a run of the walk of the
    subtree. *)
Lemma subtree_infix root :
  ∀ t, t ∈ subtree root → ∃ l1 l2, subtree root = l1 ++ subtree t ++ l2.
Proof.
  induction root as [tx lm dp ls rs IHl IHr] using Token_ind. intros t Ht.
  rewrite subtree_unfold in Ht. simpl in Ht.
  apply elem_of_app in Ht as [Ht|Ht]; [|apply elem_of_cons in Ht as [->|Ht]].
  - apply elem_of_flat_map in Ht as (l & Hl & Ht).
    rewrite Forall_forall in IHl. destruct (IHl l Hl t Ht) as (a & b & Hab).
    destruct (flat_map_infix subtree ls l Hl) as (c & d & Hcd).
    exists (c ++ a), (b ++ d ++ mkToken tx lm dp ls rs :: flat_map subtree rs).
    simpl. rewrite Hcd, Hab. rewrite <- !app_assoc. reflexivity.
  - exists [], []. rewrite app_nil_r. reflexivity.
  - apply elem_of_flat_map in Ht as (r & Hr & Ht).
    rewrite Forall_forall in IHr. destruct (IHr r Hr t Ht) as (a & b & Hab).
    destruct (flat_map_infix subtree rs r Hr) as (c & d & Hcd).
    exists (flat_map subtree ls ++ mkToken tx lm dp ls rs :: c ++ a), (b ++ d).
    simpl. rewrite Hcd, Hab. rewrite <- !app_assoc. simpl.
    rewrite <- !app_assoc. reflexivity.
Qed.

Lemma child_in_subtree t c : c ∈ children t → c ∈ subtree t.
Proof.
  unfold children. rewrite subtree_unfold. intros Hc.
  apply elem_of_app in Hc as [Hc|Hc].
  - apply elem_of_app. left. apply elem_of_flat_map. exists c.
    split; [exact Hc|apply subtree_self].
  - apply elem_of_app. right. right. apply elem_of_flat_map. exists c.
    split; [exact Hc|apply subtree_self].
Qed.

(** A child in a qualifying role is no determiner, so that its own text
    is part of the object made from its subtree. *)
Lemma object_role_not_det t : dep_ t ∈ object_roles → dep_ t ≠ "det".
Proof.
  intros Hobj Hd. rewrite Hd in Hobj.
  repeat (apply elem_of_cons in Hobj as [Hobj|Hobj]; [discriminate|]).
  inversion Hobj.
Qed.

Lemma subtree_keeps_child child :
  dep_ child ∈ object_roles →
  child ∈ filter (λ t, dep_ t ≠ "det") (subtree child).
Proof.
  intros Hobj. apply list_elem_of_filter.
  split; [apply object_role_not_det; exact Hobj|apply subtree_self].
Qed.

(** In a projective sentence the subtree of a child of one of its
    tokens is a run of the sentence, in the order of the sentence. *)
Lemma child_subtree_in_sentence sent token child :
  projective sent → token ∈ sent → child ∈ children token →
  ∃ l1 l2, sent = l1 ++ subtree child ++ l2.
Proof.
  intros [root ->] Htok Hch.
  destruct (subtree_infix root token Htok) as (a & b & Hab).
  destruct (subtree_infix token child (child_in_subtree _ _ Hch)) as (c & d & Hcd).
  exists (a ++ c), (d ++ b). rewrite Hab, Hcd, <- !app_assoc. reflexivity.
Qed.

End AnalyzerFacts.

(** ** The analyzer's claims *)

Section AnalyzerClaims.
Import Spacy Materializer Analyzer AnalyzerSpec AnalyzerFacts Scenarios.

(** No role of "announced" makes the parse yield the triple of the
    claim, whatever [str.upper] does. *)
Lemma company_parse_never_yields_claimed (upper : string → string) role :
  ("company", "ANNOUNCE", "record profits")
    ∉ extract_relations upper (company_parse role).
Proof.
  rewrite extract_relations_spec.
  intros (sent & token & child & Hsent & Htok & Hsub & Hch & Hobj & Heq).
  apply list_elem_of_singleton in Hsent as ->.
  assert (Hrole : dep_ child ≠ "det") by (apply object_role_not_det; exact Hobj).
  change (subtree (tok_company role)) with
    [tok_the; tok_company role; tok_announced role; tok_record; tok_profits; tok_dot]
    in Htok.
  assert (Hsubject : Spacy.text token = "company") by (injection Heq; auto).
  repeat (apply elem_of_cons in Htok as [Htok|Htok];
          [rewrite Htok in Hsubject; try discriminate Hsubject|]);
    [|inversion Htok].
  subst token. clear Hsubject Hsub.
  change (children (tok_company role)) with [tok_the; tok_announced role; tok_dot] in Hch.
  assert (Hobject : object_text child = "record profits") by (injection Heq; auto).
  apply elem_of_cons in Hch as [->|Hch]; [apply Hrole; reflexivity|].
  apply elem_of_cons in Hch as [->|Hch].
  - unfold object_text in Hobject.
    change (subtree (tok_announced role)) with
      [tok_announced role; tok_record; tok_profits] in Hobject.
    rewrite filter_cons, decide_True in Hobject by exact Hrole.
    vm_compute in Hobject. discriminate Hobject.
  - apply list_elem_of_singleton in Hch as ->. vm_compute in Hobject. discriminate Hobject.
Qed.

(** C4, as stated, fails twice, whatever [str.upper] does.  On its
    example: whichever qualifying role "announced" has under "company",
    the object of the one triple starts with "announced" itself, which
    belongs to its own subtree; with the verb as root no triple is
    emitted at all; the triple of the claim is emitted under no role.
    On the order: in the parse with crossing arcs the words stand in
    the order "She red car bright", and the object is "red bright car",
    the order of the walk. *)
Lemma company_object_includes_child :
  (∀ (upper : string → string) role,
     role ∈ ["attr"; "acomp"; "dobj"] →
     extract_relations upper (company_parse role) =
       [("company", upper "announce", "announced record profits")]) ∧
  (∀ upper : string → string, extract_relations upper verb_rooted_parse = []) ∧
  (∀ (upper : string → string) role,
     ("company", "ANNOUNCE", "record profits")
       ∉ extract_relations upper (company_parse role)) ∧
  map Spacy.text crossing_sentence = ["She"; "red"; "car"; "bright"] ∧
  (∀ upper : string → string,
     extract_relations upper crossing_parse =
       [("She", upper "car", "red bright car")]).
Proof.
  split; [|split; [|split; [|split]]].
  - intros upper role Hrole.
    repeat (apply elem_of_cons in Hrole as [->|Hrole]; [vm_compute; reflexivity|]).
    inversion Hrole.
  - intros upper. vm_compute. reflexivity.
  - intros upper role. apply company_parse_never_yields_claimed.
  - reflexivity.
  - intros upper. vm_compute. reflexivity.
Qed.

(** A string of a list occurs in the list joined, with its characters. *)
Lemma has_char_append c s1 s2 :
  has_char c (String.append s1 s2) = has_char c s1 || has_char c s2.
Proof.
  induction s1 as [|c' s1 IH]; simpl; [reflexivity|].
  destruct (decide (c' = c)); [reflexivity|exact IH].
Qed.

Lemma has_char_join c sep l x :
  x ∈ l → has_char c x = true → has_char c (PyStr.join sep l) = true.
Proof.
  unfold PyStr.join. induction l as [|y l IH]; intros Hx Hc.
  - inversion Hx.
  - simpl. destruct l as [|z l].
    + apply list_elem_of_singleton in Hx as ->. exact Hc.
    + rewrite !has_char_append. apply elem_of_cons in Hx as [->|Hx].
      * rewrite Hc. reflexivity.
      * rewrite (IH Hx Hc). rewrite !orb_true_r. reflexivity.
Qed.

(** However the sentence of the example is parsed, as long as the token
    whose lemma is "announce" is the word "announced", the triple of the
    claim is not in the relation list: the object of a triple contains
    the word of the child whose lemma is its predicate. *)
Lemma claimed_triple_under_no_parse (upper : string → string) (doc : Doc) :
  (∀ sent token child,
     sent ∈ sents doc → token ∈ sent → child ∈ children token →
     upper (lemma_ child) = "ANNOUNCE" → Spacy.text child = "announced") →
  ("company", "ANNOUNCE", "record profits") ∉ extract_relations upper doc.
Proof.
  intros Hlex Hin. apply extract_relations_spec in Hin
    as (sent & token & child & Hsent & Htok & _ & Hch & Hobj & Heq).
  injection Heq as _ Hpred Hobject.
  assert (Htext := Hlex sent token child Hsent Htok Hch (eq_sym Hpred)).
  assert (Hown : child ∈ filter (λ t, dep_ t ≠ "det") (subtree child)).
  { apply subtree_keeps_child. exact Hobj. }
  assert (Ha : has_char "a" (object_text child) = true).
  { unfold object_text. apply has_char_join with (x := Spacy.text child).
    - apply list_elem_of_fmap. exists child. split; [reflexivity|exact Hown].
    - rewrite Htext. reflexivity. }
  rewrite <- Hobject in Ha. vm_compute in Ha. discriminate Ha.
Qed.

(** C4, amended: for every sentence and every subject token of it with
    a child in a qualifying role, the relation list has the triple of
    the subject's text, the child's lemma in upper case ([upper] is
    [str.upper]), and the texts of the child's subtree but the
    determiners', joined by spaces in the order of the walk of the
    subtree: the walks of the child's left children, the child itself,
    the walks of its right children.  The child itself is among the
    words joined.  The order of the walk is the order of the text when
    the sentence is projective: the walk is then a run of the sentence.
    On the parse of the example, with "announced" under "company" in a
    qualifying role, the one triple is ("company", the upper case of
    "announce", "announced record profits"). *)
Theorem subject_child_triple_emitted (upper : string → string) :
  (∀ (doc : Doc) (sent : Sent) (token child : Token),
     sent ∈ sents doc →
     token ∈ sent →
     dep_ token ∈ ["nsubj"; "nsubjpass"] →
     child ∈ children token →
     dep_ child ∈ ["attr"; "acomp"; "dobj"] →
     (Spacy.text token,
      upper (lemma_ child),
      PyStr.join " " (map Spacy.text (filter (λ t, dep_ t ≠ "det") (subtree child))))
       ∈ extract_relations upper doc ∧
     subtree child =
       flat_map subtree (lefts child) ++ child :: flat_map subtree (rights child) ∧
     child ∈ filter (λ t, dep_ t ≠ "det") (subtree child) ∧
     (projective sent → ∃ l1 l2, sent = l1 ++ subtree child ++ l2)) ∧
  (∀ role,
     role ∈ ["attr"; "acomp"; "dobj"] →
     extract_relations upper (company_parse role) =
       [("company", upper "announce", "announced record profits")]).
Proof.
  split.
  - intros doc sent token child Hsent Htok Hsub Hch Hobj. split; [|split; [|split]].
    + apply extract_relations_spec. exists sent, token, child. auto 10.
    + apply subtree_unfold.
    + apply subtree_keeps_child. exact Hobj.
    + intros Hproj. eapply child_subtree_in_sentence; eassumption.
  - intros role Hrole.
    repeat (apply elem_of_cons in Hrole as [->|Hrole]; [vm_compute; reflexivity|]).
    inversion Hrole.
Qed.

Lemma subject_child_triple_emitted_witness :
  ("company", "ANNOUNCE", "announced record profits")
    ∈ extract_relations PyStr.ascii_upper (company_parse "dobj") ∧
  (∃ l1 l2, subtree (tok_company "dobj") = l1 ++ subtree (tok_announced "dobj") ++ l2) ∧
  ("She", "CAR", "red bright car")
    ∈ extract_relations PyStr.ascii_upper crossing_parse.
Proof.
  destruct (subject_child_triple_emitted PyStr.ascii_upper) as [H _].
  split; [|split].
  - destruct (H (company_parse "dobj") (subtree (tok_company "dobj"))
                (tok_company "dobj") (tok_announced "dobj")) as (Hin & _ & _ & _).
    + left.
    + right. left.
    + left.
    + right. left.
    + right. right. left.
    + exact Hin.
  - destruct (H (company_parse "dobj") (subtree (tok_company "dobj"))
                (tok_company "dobj") (tok_announced "dobj")) as (_ & _ & _ & Hrun).
    + left.
    + right. left.
    + left.
    + right. left.
    + right. right. left.
    + apply Hrun. exists (tok_company "dobj"). reflexivity.
  - destruct (H crossing_parse crossing_sentence tok_she tok_car) as (Hin & _).
    + left.
    + left.
    + left.
    + left.
    + right. right. left.
    + exact Hin.
Defined.

(** C6: a text that is empty, or that parses to no sentence, yields the
    empty entity mapping and the empty relation list: a value, not an
    error.  The parser is any parser whose entity spans lie in the
    document and which finds no sentence in the empty text. *)
Theorem no_sentence_no_output
    (upper : string → string)
    (nlp : string → Doc) (list_of_set : gset string → list string)
    (article_text : string) :
  wf_doc (nlp article_text) →
  sents (nlp "") = [] →
  article_text = "" ∨ sents (nlp article_text) = [] →
  extract_entities_and_relations upper nlp list_of_set article_text =
    mkEntityData [] [].
Proof.
  intros Hwf Hempty Hcase.
  assert (Hs : sents (nlp article_text) = []).
  { destruct Hcase as [->|H]; assumption. }
  unfold extract_entities_and_relations, extract_entities, extract_relations.
  rewrite Hs. simpl.
  assert (He : ents (nlp article_text) = []).
  { unfold wf_doc, doc_length in Hwf. rewrite Hs in Hwf. simpl in Hwf.
    destruct (ents (nlp article_text)) as [|e es]; [reflexivity|].
    apply Forall_cons in Hwf as [[H1 H2] _]. lia. }
  rewrite He. reflexivity.
Qed.

Lemma no_sentence_no_output_witness :
  extract_entities_and_relations PyStr.ascii_upper example_nlp elements "" =
    mkEntityData [] [] ∧
  extract_entities_and_relations PyStr.ascii_upper example_nlp elements "No such text" =
    mkEntityData [] [].
Proof.
  split.
  - apply no_sentence_no_output; [constructor|reflexivity|left; reflexivity].
  - apply no_sentence_no_output; [constructor|reflexivity|right; reflexivity].
Defined.

(** C8: two runs on the same parser output give the same relation list,
    whatever the order in which each run lists its sets; the list is
    the triples of the sentences in their order, and within a sentence
    those of its tokens in their order. *)
Theorem relation_list_stable
    (upper : string → string)
    (nlp1 nlp2 : string → Doc) (order1 order2 : gset string → list string)
    (article_text : string) :
  nlp1 article_text = nlp2 article_text →
  relationships (extract_entities_and_relations upper nlp1 order1 article_text) =
  relationships (extract_entities_and_relations upper nlp2 order2 article_text) ∧
  relationships (extract_entities_and_relations upper nlp1 order1 article_text) =
  flat_map (λ sent, flat_map (token_triples upper) sent) (sents (nlp1 article_text)) ∧
  (∀ before sent after,
     sents (nlp1 article_text) = before ++ sent :: after →
     relationships (extract_entities_and_relations upper nlp1 order1 article_text) =
     flat_map (sentence_triples upper) before ++ sentence_triples upper sent ++
     flat_map (sentence_triples upper) after) ∧
  (∀ sent before token after,
     sent = before ++ token :: after →
     sentence_triples upper sent =
     sentence_triples upper before ++ token_triples upper token ++
     sentence_triples upper after).
Proof.
  intros Hdoc. unfold extract_entities_and_relations. simpl.
  split; [rewrite Hdoc; reflexivity|]. split; [apply extract_relations_eq|]. split.
  - intros before sent after Hs. rewrite extract_relations_eq, Hs, flat_map_app.
    reflexivity.
  - intros sent before token after ->. unfold sentence_triples.
    rewrite flat_map_app. reflexivity.
Qed.

Lemma relation_list_stable_witness :
  relationships (extract_entities_and_relations PyStr.ascii_upper example_nlp elements
                   "The company announced record profits.") =
  relationships (extract_entities_and_relations PyStr.ascii_upper example_nlp
                   (λ s, reverse (elements s))
                   "The company announced record profits.").
Proof.
  apply (relation_list_stable PyStr.ascii_upper example_nlp example_nlp elements
           (λ s, reverse (elements s)) "The company announced record profits.").
  reflexivity.
Defined.

End AnalyzerClaims.

(** ** The prompt's claim *)

Section PromptClaims.
Import Prompt.

Lemma lower_is_q (u : string) :
  PyStr.lower u = "q" ↔ u = "q" ∨ u = "Q".
Proof.
  split.
  - destruct u as [|c [|c' u']]; simpl; try discriminate.
    intros H. injection H as H.
    destruct c as [[] [] [] [] [] [] [] []]; vm_compute in H; try discriminate H; auto.
  - intros [->| ->]; reflexivity.
Qed.

(** The white space of all of Unicode is trimmed: a no-break space
    before the sentinel, an em space before a URL and a no-break space
    after it. *)
Example turn_unicode_padded :
  turn (String.append (PyStr.bytes [194; 160]) "Q") = Quit ∧
  turn (String.append (PyStr.bytes [226; 128; 131])
          (String.append "http://a" (PyStr.bytes [194; 160]))) = Accept "http://a".
Proof. split; reflexivity. Qed.

(** C10, as stated, fails: a line that starts with a space and goes on
    with a URL does not start with "http://" or "https://" and is not
    the sentinel, yet it is accepted, trimmed, rather than asked again. *)
Lemma padded_url_is_accepted :
  PyStr.startswith_any " http://example.com" ["http://"; "https://"] = false ∧
  PyStr.lower (PyStr.strip " http://example.com") ≠ "q" ∧
  get_article_url [" http://example.com"] =
    ([], Returned (Some "http://example.com") []).
Proof. repeat split. vm_compute. discriminate. Qed.

(** C10, amended: the line read is trimmed first.  If the trimmed line
    in lower case is "q", that is if it is "q" or "Q", the loop ends
    and returns [None]; otherwise, if the trimmed line starts with
    neither "http://" nor "https://", the loop prints its message and
    asks again, whatever follows deciding the outcome; otherwise the
    trimmed line is returned. *)
Theorem sentinel_trimmed_case_insensitive (line : string) (rest : list string) :
  let url := PyStr.strip line in
  (PyStr.lower url = "q" ↔ url = "q" ∨ url = "Q") ∧
  (PyStr.lower url = "q" →
     get_article_url (line :: rest) = ([], Returned None rest)) ∧
  (PyStr.lower url ≠ "q" →
   PyStr.startswith url "http://" = false →
   PyStr.startswith url "https://" = false →
     turn line = Reprompt ∧
     get_article_url (line :: rest) =
       (invalid_url_message :: fst (get_article_url rest),
        snd (get_article_url rest))) ∧
  (PyStr.lower url ≠ "q" →
   PyStr.startswith url "http://" = true ∨ PyStr.startswith url "https://" = true →
     get_article_url (line :: rest) = ([], Returned (Some url) rest)) ∧
  turn "Q" = Quit ∧ turn " q " = Quit.
Proof.
  simpl. split; [apply lower_is_q|]. split; [|split; [|split]].
  - intros Hq. unfold turn. rewrite decide_True by exact Hq. reflexivity.
  - intros Hq H1 H2.
    assert (Ht : turn line = Reprompt).
    { unfold turn. rewrite decide_False by exact Hq.
      unfold PyStr.startswith_any. simpl. rewrite H1, H2. reflexivity. }
    split; [exact Ht|]. simpl. rewrite Ht.
    destruct (get_article_url rest). reflexivity.
  - intros Hq H. simpl. unfold turn. rewrite decide_False by exact Hq.
    unfold PyStr.startswith_any. simpl.
    destruct H as [-> | ->]; [|rewrite orb_true_r]; reflexivity.
  - split; reflexivity.
Qed.

Lemma sentinel_trimmed_case_insensitive_witness :
  get_article_url ["  Q  "; "https://example.com"] =
    ([], Returned None ["https://example.com"]) ∧
  get_article_url ["example.com"; "q"] =
    ([invalid_url_message], Returned None []).
Proof.
  split.
  - apply (sentinel_trimmed_case_insensitive "  Q  " ["https://example.com"]).
    reflexivity.
  - destruct (sentinel_trimmed_case_insensitive "example.com" ["q"])
      as (_ & _ & H & _).
    destruct H as [_ H]; [discriminate|reflexivity|reflexivity|].
    rewrite H. reflexivity.
Defined.

End PromptClaims.

(** * More of the script *)

(** ** Trimming *)

Section StripFacts.
Import PipelineSpec.

Lemma drop_prefix_length p : ∀ s r,
  PyStr.drop_prefix p s = Some r →
  String.length s = String.length p + String.length r.
Proof.
  induction p as [|a p IH]; intros s r H; simpl in H.
  - injection H as ->. reflexivity.
  - destruct s as [|b s]; [discriminate H|].
    destruct (decide (a = b)); [|discriminate H].
    simpl. rewrite (IH s r H). reflexivity.
Qed.

Lemma drop_prefix_append p : ∀ s r t,
  PyStr.drop_prefix p s = Some r →
  PyStr.drop_prefix p (String.append s t) = Some (String.append r t).
Proof.
  induction p as [|a p IH]; intros s r t H; simpl in H.
  - injection H as ->. reflexivity.
  - destruct s as [|b s]; [discriminate H|]. simpl.
    destruct (decide (a = b)); [|discriminate H]. apply IH. exact H.
Qed.

(** A string starts with no white space character when no white space
    character is a prefix of it. *)
Lemma head_omap_None {A B} (f : A → option B) (l : list A) :
  head (omap f l) = None ↔ Forall (λ x, f x = None) l.
Proof.
  induction l as [|x l IH].
  - split; [constructor|reflexivity].
  - change (omap f (x :: l)) with
      (match f x with Some y => y :: omap f l | None => omap f l end).
    destruct (f x) as [y|] eqn:Hx.
    + split; [discriminate|]. intros H. apply Forall_cons in H as [H _].
      rewrite Hx in H. discriminate H.
    + rewrite IH. split.
      * intros H. constructor; assumption.
      * intros H. apply Forall_cons in H as [_ H]. exact H.
Qed.

Lemma head_omap_Some {A B} (f : A → option B) (l : list A) (y : B) :
  head (omap f l) = Some y → ∃ x, x ∈ l ∧ f x = Some y.
Proof.
  induction l as [|x l IH].
  - discriminate.
  - change (omap f (x :: l)) with
      (match f x with Some y => y :: omap f l | None => omap f l end).
    destruct (f x) as [z|] eqn:Hx.
    + intros H. injection H as ->. exists x. split; [left|exact Hx].
    + intros H. destruct (IH H) as (x' & Hin & Hf).
      exists x'. split; [right; exact Hin|exact Hf].
Qed.

Lemma whitespace_nonempty w : w ∈ PyStr.whitespace → 1 ≤ String.length w.
Proof.
  revert w. apply Forall_forall.
  repeat (constructor; [vm_compute; lia|]). constructor.
Qed.

(** Past a white space character the string is shorter. *)
Lemma after_space_shorter s r :
  PyStr.after_space s = Some r → String.length r < String.length s.
Proof.
  unfold PyStr.after_space. intros H. apply head_omap_Some in H as (w & Hw & Hd).
  apply drop_prefix_length in Hd. apply whitespace_nonempty in Hw. lia.
Qed.

Lemma lstrip_turns_starts_clean turns : ∀ s,
  String.length s ≤ turns → starts_clean (PyStr.lstrip_turns turns s).
Proof.
  induction turns as [|turns IH]; intros s Hlen.
  - destruct s; [reflexivity|simpl in Hlen; lia].
  - simpl. destruct (PyStr.after_space s) as [r|] eqn:Hs.
    + apply IH. apply after_space_shorter in Hs. lia.
    + exact Hs.
Qed.

Lemma lstrip_starts_clean s : starts_clean (PyStr.lstrip s).
Proof. apply lstrip_turns_starts_clean. reflexivity. Qed.

Lemma lstrip_clean s : starts_clean s → PyStr.lstrip s = s.
Proof.
  unfold starts_clean, PyStr.lstrip. intros H.
  destruct (String.length s); simpl; [reflexivity|]. rewrite H. reflexivity.
Qed.

(** What starts a string starts with no more white space than the
    string. *)
Lemma starts_clean_prefix s t : starts_clean (String.append s t) → starts_clean s.
Proof.
  unfold starts_clean, PyStr.after_space. rewrite !head_omap_None.
  intros H. eapply Forall_impl; [exact H|]. simpl. intros w Hw.
  destruct (PyStr.drop_prefix w s) as [r|] eqn:Hs; [|reflexivity].
  rewrite (drop_prefix_append _ _ _ t Hs) in Hw. discriminate Hw.
Qed.

Lemma rstrip_cons c s :
  PyStr.rstrip (String c s) =
    if bool_decide (String c (PyStr.rstrip s) ∈ PyStr.whitespace) then EmptyString
    else String c (PyStr.rstrip s).
Proof. reflexivity. Qed.

(** [rstrip] keeps a prefix of its string. *)
Lemma rstrip_prefix s : ∃ t, s = String.append (PyStr.rstrip s) t.
Proof.
  induction s as [|c s [t IH]].
  - exists EmptyString. reflexivity.
  - rewrite rstrip_cons.
    destruct (bool_decide (String c (PyStr.rstrip s) ∈ PyStr.whitespace)).
    + exists (String c s). reflexivity.
    + exists t. exact (f_equal (String c) IH).
Qed.

Lemma rstrip_starts_clean s : starts_clean s → starts_clean (PyStr.rstrip s).
Proof.
  intros H. destruct (rstrip_prefix s) as [t Ht]. rewrite Ht in H.
  eapply starts_clean_prefix. exact H.
Qed.

Lemma rstrip_rstrip s : PyStr.rstrip (PyStr.rstrip s) = PyStr.rstrip s.
Proof.
  induction s as [|c s IH]; [reflexivity|].
  rewrite rstrip_cons.
  destruct (bool_decide (String c (PyStr.rstrip s) ∈ PyStr.whitespace)) eqn:Hc;
    [reflexivity|].
  rewrite rstrip_cons, IH, Hc. reflexivity.
Qed.

(** Trimming what is trimmed changes nothing. *)
Lemma strip_strip s : PyStr.strip (PyStr.strip s) = PyStr.strip s.
Proof.
  unfold PyStr.strip.
  rewrite (lstrip_clean (PyStr.rstrip (PyStr.lstrip s))).
  - apply rstrip_rstrip.
  - apply rstrip_starts_clean, lstrip_starts_clean.
Qed.

End StripFacts.

(** ** The prompt, on any lines *)

Section PromptExtras.
Import Prompt Pipeline PipelineSpec.

Lemma turn_accept line url :
  turn line = Accept url →
  url = PyStr.strip line ∧ PyStr.lower url ≠ "q" ∧
  PyStr.startswith_any url ["http://"; "https://"] = true.
Proof.
  unfold turn. destruct (decide (PyStr.lower (PyStr.strip line) = "q")); [discriminate|].
  destruct (PyStr.startswith_any (PyStr.strip line) ["http://"; "https://"]) eqn:Hp;
    [|discriminate].
  intros [= <-]. auto.
Qed.

Lemma turn_quit line : turn line = Quit ↔ PyStr.lower (PyStr.strip line) = "q".
Proof.
  unfold turn. destruct (decide (PyStr.lower (PyStr.strip line) = "q")) as [H|H].
  - tauto.
  - destruct (PyStr.startswith_any _ _); split; intros; try discriminate; tauto.
Qed.

(** A URL that the prompt returns was accepted from one of the lines. *)
Lemma returned_url_accepted lines printed url unread :
  get_article_url lines = (printed, Returned (Some url) unread) →
  ∃ line, line ∈ lines ∧ turn line = Accept url.
Proof.
  revert printed. induction lines as [|line lines IH]; intros printed; simpl.
  - discriminate.
  - destruct (turn line) as [|u|] eqn:Ht.
    + discriminate.
    + intros [= _ -> _]. exists line. split; [left|exact Ht].
    + destruct (get_article_url lines) as [printed' r]. intros [= _ ->].
      destruct (IH printed' eq_refl) as (l & Hl & Hacc).
      exists l. split; [right; exact Hl|exact Hacc].
Qed.

(** X1: the loop drops the leading lines that are neither the sentinel
    nor a URL, prints its message once for each of them, and stops at
    the first line that is one or the other: it returns [None] for the
    sentinel and the trimmed line for a URL, and leaves the lines after
    it unread.  When no line decides, all are dropped and [input()] runs
    out of input. *)
Theorem prompt_stops_at_first_decisive_line (lines : list string) :
  ∃ rejected,
    Forall (λ line, turn line = Reprompt) rejected ∧
    fst (get_article_url lines) = map (λ _, invalid_url_message) rejected ∧
    match snd (get_article_url lines) with
    | EndOfInput => lines = rejected
    | Returned value unread =>
        ∃ line, lines = rejected ++ line :: unread ∧
                (turn line = Quit ∧ value = None ∨
                 turn line = Accept (PyStr.strip line) ∧ value = Some (PyStr.strip line))
    end.
Proof.
  induction lines as [|line lines IH]; simpl.
  - exists []. repeat split. constructor.
  - destruct (turn line) as [|url|] eqn:Ht; simpl.
    + exists []. split; [constructor|]. split; [reflexivity|].
      exists line. split; [reflexivity|]. left. split; [exact Ht|reflexivity].
    + exists []. split; [constructor|]. split; [reflexivity|].
      exists line. split; [reflexivity|]. right.
      pose proof (turn_accept _ _ Ht) as (-> & _). split; [exact Ht|reflexivity].
    + destruct IH as (rejected & Hrej & Hprinted & Hres).
      destruct (get_article_url lines) as [printed r]. simpl in *.
      exists (line :: rejected). split; [constructor; assumption|].
      split; [rewrite Hprinted; reflexivity|].
      destruct r as [value unread|].
      * destruct Hres as (l & -> & Hl). exists l. split; [reflexivity|exact Hl].
      * rewrite Hres. reflexivity.
Qed.


(** X2: a URL that the loop returns is a line of the input, trimmed: it
    has no white space left around it, it starts with "http://" or with
    "https://", it is not the sentinel and it is not empty, so that the
    test [not article_url] of [main] holds of [None] alone. *)
Theorem returned_url_is_clean
    (lines printed unread : list string) (url : string) :
  get_article_url lines = (printed, Returned (Some url) unread) →
  (∃ line, line ∈ lines ∧ url = PyStr.strip line) ∧
  PyStr.strip url = url ∧
  (PyStr.startswith url "http://" = true ∨ PyStr.startswith url "https://" = true) ∧
  PyStr.lower url ≠ "q" ∧
  url ≠ "" ∧
  falsy (Some url) = false.
Proof.
  intros Hres.
  destruct (returned_url_accepted _ _ _ _ Hres) as (line & Hline & Ht).
  apply turn_accept in Ht as (-> & Hq & Hp).
  assert (Hne : PyStr.strip line ≠ "").
  { intros He. rewrite He in Hp. discriminate Hp. }
  split; [|split; [|split; [|split; [|split]]]].
  - exists line. split; [exact Hline|reflexivity].
  - apply strip_strip.
  - unfold PyStr.startswith_any in Hp. simpl in Hp.
    rewrite orb_false_r in Hp. apply orb_true_iff in Hp. exact Hp.
  - exact Hq.
  - exact Hne.
  - simpl. apply bool_decide_eq_false. exact Hne.
Qed.

Lemma returned_url_is_clean_witness :
  PyStr.strip "https://example.com/a" = "https://example.com/a" ∧
  "https://example.com/a" ≠ "".
Proof.
  destruct (returned_url_is_clean ["news"; "  https://example.com/a "; "q"]
              [invalid_url_message] ["q"] "https://example.com/a")
    as (_ & Hs & _ & _ & Hne & _).
  - reflexivity.
  - split; [exact Hs|exact Hne].
Defined.

End PromptExtras.

(** ** The session *)

Section SessionFacts.
Import Neo Materializer MaterializerSpec MaterializerFacts.
Import Spacy Analyzer Prompt Pipeline PipelineSpec.

Context (upper : string → string)
        (fetch : string → string + Parsed)
        (nlp : string → Doc)
        (list_of_set : gset string → list string).

Lemma accepted_not_falsy line url : turn line = Accept url → falsy (Some url) = false.
Proof.
  intros Ht. apply turn_accept in Ht as (_ & _ & Hp). simpl.
  apply bool_decide_eq_false. intros ->. discriminate Hp.
Qed.

Lemma get_article_url_cons line lines :
  get_article_url (line :: lines) =
  match turn line with
  | Quit => ([], Returned None lines)
  | Accept url => ([], Returned (Some url) lines)
  | Reprompt =>
      (invalid_url_message :: fst (get_article_url lines), snd (get_article_url lines))
  end.
Proof.
  simpl. destruct (turn line); try reflexivity.
  destruct (get_article_url lines). reflexivity.
Qed.

Lemma main_loop_S fuel lines w :
  main_loop upper fetch nlp list_of_set (S fuel) lines w =
  match snd (get_article_url lines) with
  | EndOfInput => (map Said (fst (get_article_url lines)), EOFError, w)
  | Returned article_url unread =>
      if falsy article_url
      then (map Said (fst (get_article_url lines)) ++ [Exiting], Exited, w)
      else
        match scrape_article fetch (default "" article_url) with
        | inl e =>
            let '(events, ending, w') :=
              main_loop upper fetch nlp list_of_set fuel unread w in
            (map Said (fst (get_article_url lines)) ++ Failed e :: events, ending, w')
        | inr a =>
            let ed := extract_entities_and_relations upper nlp list_of_set
                        (Materializer.text a) in
            let '(events, ending, w') :=
              main_loop upper fetch nlp list_of_set fuel unread
                (exec (store_in_graphdb a ed) w) in
            (map Said (fst (get_article_url lines)) ++
             Stored (stored_entities (eval (store_in_graphdb a ed) w))
                    (stored_relationships (eval (store_in_graphdb a ed) w)) ::
             Complete (title a) (found_entities (entities ed))
                      (length (relationships ed)) :: events,
             ending, w')
        end
  end.
Proof.
  cbn [main_loop]. destruct (snd (get_article_url lines)) as [value unread|]; [|reflexivity].
  destruct (falsy value); [reflexivity|].
  destruct (scrape_article fetch (default "" value)) as [e|a]; [reflexivity|].
  unfold eval, exec. cbv zeta.
  destruct (store_in_graphdb a _ w) as [out w1]. reflexivity.
Qed.

(** The loop of [main], given turns enough, is the pass over the lines. *)
Lemma main_loop_session lines :
  ∀ fuel w, length lines < fuel →
    main_loop upper fetch nlp list_of_set fuel lines w =
    session upper fetch nlp list_of_set lines w.
Proof.
  induction lines as [|line lines IH]; intros fuel w Hfuel;
    destruct fuel as [|fuel]; try (simpl in Hfuel; lia).
  - reflexivity.
  - simpl in Hfuel. rewrite main_loop_S, get_article_url_cons.
    cbn [session]. destruct (turn line) as [|url|] eqn:Ht; cbn [fst snd map app].
    + reflexivity.
    + rewrite (accepted_not_falsy _ _ Ht). change (default "" (Some url)) with url.
      destruct (scrape_article fetch url) as [e|a]; cbv zeta.
      * rewrite IH by lia. reflexivity.
      * rewrite IH by lia. reflexivity.
    + rewrite <- (IH (S fuel) w) by lia. rewrite main_loop_S.
      destruct (snd (get_article_url lines)) as [value unread|]; [|reflexivity].
      destruct (falsy value); [reflexivity|].
      destruct (scrape_article fetch (default "" value)) as [e|a]; cbv zeta.
      * destruct (main_loop upper fetch nlp list_of_set fuel unread w) as [[events ending] w'].
        reflexivity.
      * destruct (main_loop upper fetch nlp list_of_set fuel unread _) as [[events ending] w'].
        reflexivity.
Qed.

Lemma main_session lines w :
  main upper fetch nlp list_of_set lines w = session upper fetch nlp list_of_set lines w.
Proof. unfold main. apply main_loop_session. lia. Qed.


Lemma session_ending lines w :
  (Exists (λ line, turn line = Quit) lines →
   (session upper fetch nlp list_of_set lines w).1.2 = Exited) ∧
  (¬ Exists (λ line, turn line = Quit) lines →
   (session upper fetch nlp list_of_set lines w).1.2 = EOFError).
Proof.
  revert w. induction lines as [|line lines IH]; intros w.
  - split; [intros H; inversion H|reflexivity].
  - assert (Hstep : ∀ w1, turn line ≠ Quit →
      (Exists (λ l, turn l = Quit) (line :: lines) →
       (session upper fetch nlp list_of_set lines w1).1.2 = Exited) ∧
      (¬ Exists (λ l, turn l = Quit) (line :: lines) →
       (session upper fetch nlp list_of_set lines w1).1.2 = EOFError)).
    { intros w1 Hnq. destruct (IH w1) as [Hex Hno]. split.
      - intros H. apply Exists_cons in H as [H|H]; [contradiction|auto].
      - intros H. apply Hno. intros H'. apply H. right. exact H'. }
    cbn [session]. destruct (turn line) as [|url|] eqn:Ht.
    + split; [reflexivity|]. intros H. exfalso. apply H. left. exact Ht.
    + destruct (scrape_article fetch url) as [e|a]; cbv zeta.
      * destruct (Hstep w ltac:(discriminate)) as [H1 H2].
        destruct (session upper fetch nlp list_of_set lines w) as [[? ?] ?]. split; assumption.
      * destruct (Hstep (exec (store_in_graphdb a
                          (extract_entities_and_relations upper nlp list_of_set
                             (Materializer.text a))) w) ltac:(discriminate)) as [H1 H2].
        destruct (session upper fetch nlp list_of_set lines _) as [[? ?] ?]. split; assumption.
    + destruct (Hstep w ltac:(discriminate)) as [H1 H2].
      destruct (session upper fetch nlp list_of_set lines w) as [[? ?] ?]. split; assumption.
Qed.






(** X3: the loop of [main] needs no more turns than there are lines,
    and one: with that many or more it gives the result of [main], and
    that result is an exit or the end of the input, never a loop cut
    short. *)
Theorem main_has_turns_enough (fuel : nat) (lines : list string) (w : World) :
  length lines < fuel →
  main_loop upper fetch nlp list_of_set fuel lines w = main upper fetch nlp list_of_set lines w ∧
  (main upper fetch nlp list_of_set lines w).1.2 ≠ OutOfFuel.
Proof.
  intros Hfuel. rewrite main_session, main_loop_session by exact Hfuel.
  split; [reflexivity|].
  destruct (session_ending lines w) as [Hq Hn].
  destruct (decide (Exists (λ line, PyStr.lower (PyStr.strip line) = "q") lines)) as [H|H].
  - rewrite Hq; [discriminate|].
    eapply Exists_impl; [exact H|]. intros l Hl. apply turn_quit. exact Hl.
  - rewrite Hn; [discriminate|]. intros H'. apply H.
    eapply Exists_impl; [exact H'|]. intros l Hl. apply turn_quit. exact Hl.
Qed.

(** X4: a session ends by the exit of line 142 exactly when one of its
    lines, trimmed and in lower case, is "q"; otherwise it ends when the
    input does.  Neither an invalid line nor an article that fails to
    download ends it. *)
Theorem session_ends_on_sentinel_only (lines : list string) (w : World) :
  ((main upper fetch nlp list_of_set lines w).1.2 = Exited ↔
   ∃ line, line ∈ lines ∧ PyStr.lower (PyStr.strip line) = "q") ∧
  ((main upper fetch nlp list_of_set lines w).1.2 = EOFError ↔
   ∀ line, line ∈ lines → PyStr.lower (PyStr.strip line) ≠ "q").
Proof.
  rewrite main_session. destruct (session_ending lines w) as [Hq Hn].
  assert (Hex : Exists (λ line, turn line = Quit) lines ↔
                ∃ line, line ∈ lines ∧ PyStr.lower (PyStr.strip line) = "q").
  { rewrite Exists_exists. split; intros (l & Hl & H); exists l; split; auto;
      apply turn_quit; exact H. }
  destruct (decide (Exists (λ line, PyStr.lower (PyStr.strip line) = "q") lines)) as [H|H].
  - assert (H' : Exists (λ line, turn line = Quit) lines).
    { eapply Exists_impl; [exact H|]. intros l Hl. apply turn_quit. exact Hl. }
    rewrite (Hq H'). split.
    + split; [intros _; apply Hex; exact H'|reflexivity].
    + split; [discriminate|]. intros Hall. exfalso.
      apply Hex in H' as (l & Hl & Hlq). exact (Hall l Hl Hlq).
  - assert (H' : ¬ Exists (λ line, turn line = Quit) lines).
    { intros H'. apply H. eapply Exists_impl; [exact H'|].
      intros l Hl. apply turn_quit. exact Hl. }
    rewrite (Hn H'). split.
    + split; [discriminate|]. intros Hq'. exfalso. apply H', Hex, Hq'.
    + split; [|reflexivity]. intros _ l Hl Hlq. apply H', Hex. eauto.
Qed.




End SessionFacts.

Section SessionWitnesses.
Import Neo Materializer MaterializerSpec Pipeline PipelineSpec Scenarios SessionScenarios.

Lemma main_has_turns_enough_witness :
  main_loop PyStr.ascii_upper example_fetch example_nlp elements 9
    example_lines empty_world =
  main PyStr.ascii_upper example_fetch example_nlp elements example_lines empty_world ∧
  (main PyStr.ascii_upper example_fetch example_nlp elements
     example_lines empty_world).1.2 = Exited.
Proof.
  destruct (main_has_turns_enough PyStr.ascii_upper example_fetch example_nlp elements 9
              example_lines empty_world) as [H _].
  - simpl. lia.
  - split; [exact H|]. vm_compute. reflexivity.
Defined.


End SessionWitnesses.

(** ** More on the materializer *)

Section MaterializerExtras.
Import Neo Materializer MaterializerSpec MaterializerFacts Pipeline Scenarios.

Lemma named_ids base ps :
  map (λ b, node_id (snd b)) (named base ps) = seq base (length ps).
Proof.
  revert base. induction ps as [|p ps IH]; intros base; simpl; [|rewrite IH]; reflexivity.
Qed.

Lemma bound_in_store a ed w n nd :
  flattened (entities ed) w !! n = Some nd →
  nd ∈ store_nodes (exec (store_in_graphdb a ed) w).
Proof.
  intros H. apply flattened_lookup in H. rewrite store_nodes_run. right.
  apply list_elem_of_fmap. exists (n, nd). auto.
Qed.

Lemma filter_length_le {A} (P : A → Prop) `{∀ x, Decision (P x)} (l : list A) :
  length (filter P l) ≤ length l ∧ (length (filter P l) = length l ↔ Forall P l).
Proof.
  induction l as [|x l [IHle IHeq]]; simpl.
  - split; [lia|]. split; [constructor|reflexivity].
  - rewrite filter_cons. destruct (decide (P x)) as [Hx|Hx]; simpl.
    + split; [lia|]. rewrite Forall_cons. split.
      * intros Hl. split; [exact Hx|]. apply IHeq. lia.
      * intros [_ Hl]. f_equal. apply IHeq. exact Hl.
    + split; [lia|]. rewrite Forall_cons. split; [lia|tauto].
Qed.

Lemma size_list_to_set_le (l : list string) :
  size (list_to_set l : gset string) ≤ length l ∧
  (size (list_to_set l : gset string) = length l ↔ NoDup l).
Proof.
  induction l as [|x l [IHle IHeq]].
  - rewrite list_to_set_nil, size_empty. split; [reflexivity|].
    split; [constructor|reflexivity].
  - rewrite list_to_set_cons. cbn [length]. destruct (decide (x ∈ l)) as [Hx|Hx].
    + assert (Hsame : ({[x]} ∪ list_to_set l : gset string) = list_to_set l).
      { apply set_eq. intros y. rewrite elem_of_union, elem_of_singleton, elem_of_list_to_set.
        split; [intros [->|H]; assumption|auto]. }
      rewrite Hsame. split; [lia|]. rewrite NoDup_cons. split; [lia|tauto].
    + rewrite size_union, size_singleton.
      * split; [lia|]. rewrite NoDup_cons. split.
        -- intros Hl. split; [exact Hx|]. apply IHeq. lia.
        -- intros [_ Hl]. f_equal. apply IHeq. exact Hl.
      * intros y. rewrite elem_of_singleton, elem_of_list_to_set. intros -> H. exact (Hx H).
Qed.

Lemma found_entities_pairs ents : found_entities ents = length (pairs ents).
Proof.
  unfold found_entities, pairs. induction ents as [|[ty ns] ents IH]; simpl.
  - reflexivity.
  - rewrite IH, length_app, length_map. reflexivity.
Qed.

(** X8: after a run every node of the store has an identity of its own,
    given by the run (none is older than the run), every edge of the
    store joins two nodes of the store, and the store holds one node
    more than the entities reported: the article's. *)
Theorem store_after_run_is_closed (a : ArticleData) (ed : EntityData) (w : World) :
  let out := eval (store_in_graphdb a ed) w in
  let w' := exec (store_in_graphdb a ed) w in
  NoDup (map node_id (store_nodes w')) ∧
  (∀ n, n ∈ store_nodes w' → next_id w ≤ node_id n ∧ node_id n < next_id w') ∧
  (∀ r, r ∈ store_rels w' →
        start_node r ∈ store_nodes w' ∧ end_node r ∈ store_nodes w') ∧
  length (store_nodes w') = S (stored_entities out).
Proof.
  simpl. rewrite eval_run. simpl.
  assert (Hids : map node_id (store_nodes (exec (store_in_graphdb a ed) w)) =
                 seq (next_id w) (S (length (bindings (entities ed) w)))).
  { rewrite store_nodes_run. simpl. f_equal. rewrite map_map. unfold bindings.
    rewrite named_ids, named_length. reflexivity. }
  split; [rewrite Hids; apply NoDup_seq|]. split; [|split].
  - intros n Hn. rewrite next_id_run.
    assert (Hin : node_id n ∈ seq (next_id w) (S (length (bindings (entities ed) w)))).
    { rewrite <- Hids. apply list_elem_of_fmap. exists n. auto. }
    apply elem_of_seq in Hin. lia.
  - intros r Hr. rewrite store_rels_run in Hr. apply elem_of_app in Hr as [Hr|Hr].
    + apply list_elem_of_fmap in Hr as (nd & -> & Hnd). simpl.
      rewrite store_nodes_run. split; [left|right; exact Hnd].
    + apply list_elem_of_omap in Hr as (rel & _ & Hr).
      apply edge_of_Some in Hr as (Hs & _ & Ho).
      split; eapply bound_in_store; eassumption.
  - rewrite store_nodes_run. simpl. rewrite length_map, flattened_size. reflexivity.
Qed.

(** X9: the edges that leave the article node are the MENTIONS edges,
    one to each entity node in the order of their creation, and they are
    as many as the entities reported. *)
Theorem one_mentions_edge_per_entity (a : ArticleData) (ed : EntityData) (w : World) :
  let out := eval (store_in_graphdb a ed) w in
  let w' := exec (store_in_graphdb a ed) w in
  filter (λ r, start_node r = article_node out) (store_rels w') =
    map (mkRel (article_node out) "MENTIONS") (entity_nodes_of (article_node out) w') ∧
  length (filter (λ r, start_node r = article_node out) (store_rels w')) =
    stored_entities out.
Proof.
  simpl. rewrite eval_run. simpl. rewrite entity_nodes_of_run, store_rels_run.
  assert (Hf : filter (λ r, start_node r = article_of a w)
                 (map (mentions (article_of a w)) (map snd (bindings (entities ed) w)) ++
                  omap (edge_of (flattened (entities ed) w)) (relationships ed)) =
               map (mentions (article_of a w)) (map snd (bindings (entities ed) w))).
  { rewrite filter_app, filter_keep_all, filter_drop_all.
    - apply app_nil_r.
    - apply Forall_forall. intros r Hr Hstart.
      apply list_elem_of_omap in Hr as (rel & _ & Hr).
      apply edge_of_Some in Hr as (Hs & _ & _).
      apply flattened_lookup in Hs. eapply article_not_bound in Hs. exact (Hs Hstart).
    - apply Forall_forall. intros r Hr.
      apply list_elem_of_fmap in Hr as (nd & -> & _). reflexivity. }
  rewrite Hf. split; [reflexivity|].
  rewrite !length_map. symmetry. apply flattened_size.
Qed.

(** X10: the mapping [entity_nodes] binds a name to a node exactly when
    the node is the entity node of the store that carries the name; the
    label of that node is a type under which the entity mapping lists
    the name. *)
Theorem mapping_names_the_entity_nodes
    (a : ArticleData) (ed : EntityData) (w : World) (n : string) (nd : Node) :
  let out := eval (store_in_graphdb a ed) w in
  let w' := exec (store_in_graphdb a ed) w in
  (entity_nodes out !! n = Some nd ↔
   nd ∈ entity_nodes_of (article_node out) w' ∧ node_props nd = [("name", n)]) ∧
  (entity_nodes out !! n = Some nd → (node_label nd, n) ∈ pairs (entities ed)).
Proof.
  simpl. rewrite eval_run. simpl. rewrite entity_nodes_of_run, flattened_lookup.
  split; [split|].
  - intros H. split.
    + apply list_elem_of_fmap. exists (n, nd). auto.
    + apply named_elem in H. tauto.
  - intros [Hin Hp]. apply list_elem_of_fmap in Hin as ([k x] & -> & Hb).
    pose proof (named_elem _ _ _ Hb) as (_ & Hx & _). simpl in Hx, Hp.
    rewrite Hx in Hp. injection Hp as ->. exact Hb.
  - intros H. apply named_elem in H as (_ & _ & H). simpl in H.
    eapply first_seen_sub. exact H.
Qed.

(** X11: the relation triples create no node: with any triples the run
    leaves the nodes, the mapping and the allocator that it leaves with
    none, and its edges are those of the run with none followed by the
    entity-to-entity edges. *)
Theorem relations_create_no_node
    (a : ArticleData) (ents : list (string * list string)) (rels : list Triple)
    (w : World) :
  let run := store_in_graphdb a (mkEntityData ents rels) in
  let bare := store_in_graphdb a (mkEntityData ents []) in
  store_nodes (exec run w) = store_nodes (exec bare w) ∧
  entity_nodes (eval run w) = entity_nodes (eval bare w) ∧
  next_id (exec run w) = next_id (exec bare w) ∧
  store_rels (exec run w) =
    store_rels (exec bare w) ++ entity_edges (article_node (eval run w)) (exec run w).
Proof.
  simpl. rewrite !eval_run, !store_nodes_run, !next_id_run, !store_rels_run.
  simpl. rewrite entity_edges_run. simpl. rewrite app_nil_r. auto.
Qed.

(** X12: the number of relationships that line 118 reports is never
    less than the number of entity-to-entity edges the run created, and
    the two are equal exactly when every triple has its subject and its
    object among the entity names. *)
Theorem reported_relationships_bound (a : ArticleData) (ed : EntityData) (w : World) :
  let out := eval (store_in_graphdb a ed) w in
  let w' := exec (store_in_graphdb a ed) w in
  length (entity_edges (article_node out) w') ≤ stored_relationships out ∧
  (length (entity_edges (article_node out) w') = stored_relationships out ↔
   Forall (both_keys (entity_nodes out)) (relationships ed)).
Proof.
  simpl. rewrite eval_run. simpl. rewrite entity_edges_run, edges_count.
  apply filter_length_le.
Qed.

(** X13: the number of entities that [main] reports as found (line 158)
    is the number of (type, name) pairs of the mapping; the number that
    [store_in_graphdb] reports as stored is never more, and the two are
    equal exactly when no name is listed twice. *)
Theorem found_entities_bound_stored (a : ArticleData) (ed : EntityData) (w : World) :
  let out := eval (store_in_graphdb a ed) w in
  found_entities (entities ed) = length (pairs (entities ed)) ∧
  stored_entities out ≤ found_entities (entities ed) ∧
  (stored_entities out = found_entities (entities ed) ↔ NoDup (names (entities ed))).
Proof.
  simpl. rewrite eval_run. simpl. rewrite found_entities_pairs.
  rewrite <- size_dom, flattened_dom.
  replace (length (pairs (entities ed))) with (length (names (entities ed)))
    by (unfold names; apply length_map).
  split; [reflexivity|]. apply size_list_to_set_le.
Qed.

End MaterializerExtras.

(** ** More on the analyzer *)

Section AnalyzerExtras.
Import Neo Materializer MaterializerSpec MaterializerFacts.
Import Spacy Analyzer AnalyzerSpec AnalyzerFacts PipelineSpec.

Lemma dict_mem_keys {V} k (d : list (string * V)) :
  dict_mem k d = true ↔ k ∈ map fst d.
Proof.
  induction d as [|[k' v] d IH]; simpl.
  - split; [discriminate|intros H; inversion H].
  - rewrite elem_of_cons. destruct (decide (k' = k)) as [->|Hne].
    + split; auto.
    + rewrite IH. split; [auto|]. intros [H|H]; [congruence|exact H].
Qed.

Lemma dict_get_keys {V} k (d : list (string * V)) :
  is_Some (dict_get k d) ↔ k ∈ map fst d.
Proof.
  induction d as [|[k' v] d IH]; simpl.
  - split; [intros [? H]; discriminate|intros H; inversion H].
  - rewrite elem_of_cons. destruct (decide (k' = k)) as [->|Hne].
    + split; eauto.
    + rewrite IH. split; [auto|]. intros [H|H]; [congruence|exact H].
Qed.

Lemma dict_get_elem {V} k (v : V) (d : list (string * V)) :
  NoDup (map fst d) → ((k, v) ∈ d ↔ dict_get k d = Some v).
Proof.
  induction d as [|[k' v'] d IH]; simpl; intros Hnd.
  - split; [intros H; inversion H|discriminate].
  - apply NoDup_cons in Hnd as [Hk Hnd]. rewrite elem_of_cons.
    destruct (decide (k' = k)) as [->|Hne].
    + split.
      * intros [H|H]; [congruence|]. exfalso. apply Hk.
        apply list_elem_of_fmap. exists (k, v). auto.
      * intros [= ->]. left. reflexivity.
    + rewrite <- (IH Hnd). split; [intros [H|H]; [congruence|exact H]|auto].
Qed.

Lemma dict_set_new {V} k (v : V) (d : list (string * V)) :
  k ∉ map fst d → dict_set k v d = d ++ [(k, v)].
Proof.
  induction d as [|[k' v'] d IH]; simpl; intros Hk; [reflexivity|].
  apply not_elem_of_cons in Hk as [Hne Hk].
  destruct (decide (k' = k)); [congruence|]. rewrite IH by exact Hk. reflexivity.
Qed.

Lemma dict_update_keys {V} k (f : V → V) (d : list (string * V)) :
  map fst (dict_update k f d) = map fst d.
Proof.
  induction d as [|[k' v'] d IH]; simpl; [reflexivity|].
  destruct (decide (k' = k)); simpl; [reflexivity|]. rewrite IH. reflexivity.
Qed.

Lemma dict_update_get {V} k k0 (f : V → V) (d : list (string * V)) :
  dict_get k0 (dict_update k f d) =
  if decide (k = k0) then f <$> dict_get k0 d else dict_get k0 d.
Proof.
  induction d as [|[k' v'] d IH]; simpl.
  - destruct (decide (k = k0)); reflexivity.
  - destruct (decide (k' = k)) as [->|Hne]; simpl.
    + destruct (decide (k = k0)); reflexivity.
    + destruct (decide (k' = k0)) as [->|Hne0].
      * destruct (decide (k = k0)); [congruence|reflexivity].
      * exact IH.
Qed.

Lemma dict_get_app {V} k (d1 d2 : list (string * V)) :
  dict_get k (d1 ++ d2) =
  match dict_get k d1 with Some v => Some v | None => dict_get k d2 end.
Proof.
  induction d1 as [|[k' v'] d1 IH]; simpl; [reflexivity|].
  destruct (decide (k' = k)); [reflexivity|exact IH].
Qed.

(** One entity added: the keys, and what each key holds. *)
Lemma add_entity_keys d e :
  map fst (add_entity d e) =
  if decide (label_ e ∈ map fst d) then map fst d else map fst d ++ [label_ e].
Proof.
  unfold add_entity. rewrite dict_update_keys.
  destruct (dict_mem (label_ e) d) eqn:Hm.
  - apply dict_mem_keys in Hm. rewrite decide_True by exact Hm. reflexivity.
  - assert (Hk : label_ e ∉ map fst d).
    { intros H. apply dict_mem_keys in H. congruence. }
    rewrite decide_False by exact Hk. rewrite dict_set_new by exact Hk.
    rewrite map_app. reflexivity.
Qed.

Lemma add_entity_get d e k :
  dict_get k (add_entity d e) =
  if decide (label_ e = k)
  then Some (default ∅ (dict_get k d) ∪ {[ent_text e]})
  else dict_get k d.
Proof.
  unfold add_entity. rewrite dict_update_get.
  destruct (dict_mem (label_ e) d) eqn:Hm.
  - destruct (decide (label_ e = k)) as [<-|Hne]; [|reflexivity].
    apply dict_mem_keys, dict_get_keys in Hm as [v Hv]. rewrite Hv. reflexivity.
  - assert (Hk : label_ e ∉ map fst d).
    { intros H. apply dict_mem_keys in H. congruence. }
    rewrite dict_set_new by exact Hk. rewrite dict_get_app.
    destruct (decide (label_ e = k)) as [<-|Hne].
    + destruct (dict_get (label_ e) d) as [v|] eqn:Hv.
      * exfalso. apply Hk, dict_get_keys. eauto.
      * simpl. rewrite decide_True by reflexivity. reflexivity.
    + destruct (dict_get k d); [reflexivity|]. simpl.
      rewrite decide_False by exact Hne. reflexivity.
Qed.

Lemma grouped_keys ents d :
  map fst (foldl add_entity d ents) =
  map fst d ++ fresh_keys (map fst d) (map label_ ents).
Proof.
  revert d. induction ents as [|e ents IH]; intros d; simpl.
  - rewrite app_nil_r. reflexivity.
  - rewrite IH, add_entity_keys.
    destruct (decide (label_ e ∈ map fst d)); [reflexivity|].
    rewrite <- app_assoc. reflexivity.
Qed.

Lemma fresh_keys_spec seen ks :
  NoDup seen →
  NoDup (seen ++ fresh_keys seen ks) ∧
  ∀ k, k ∈ fresh_keys seen ks ↔ k ∈ ks ∧ k ∉ seen.
Proof.
  revert seen. induction ks as [|k0 ks IH]; intros seen Hnd; simpl.
  - rewrite app_nil_r. split; [exact Hnd|]. intros k. rewrite elem_of_nil. tauto.
  - destruct (decide (k0 ∈ seen)) as [Hin|Hout].
    + destruct (IH seen Hnd) as [H1 H2]. split; [exact H1|].
      intros k. rewrite H2, elem_of_cons. split; [tauto|].
      intros [[->|H] Hk]; tauto.
    + assert (Hnd' : NoDup (seen ++ [k0])).
      { apply NoDup_app. split; [exact Hnd|]. split; [|apply NoDup_singleton].
        intros x Hx Hx0. apply list_elem_of_singleton in Hx0 as ->. exact (Hout Hx). }
      destruct (IH (seen ++ [k0]) Hnd') as [H1 H2].
      split; [rewrite <- app_assoc in H1; exact H1|].
      intros k. rewrite !elem_of_cons, H2, elem_of_app, list_elem_of_singleton.
      destruct (decide (k = k0)) as [->|Hne]; [tauto|]. tauto.
Qed.

Lemma grouped_get ents d k t :
  t ∈ default ∅ (dict_get k (foldl add_entity d ents)) ↔
  t ∈ default ∅ (dict_get k d) ∨ ∃ e, e ∈ ents ∧ label_ e = k ∧ ent_text e = t.
Proof.
  revert d. induction ents as [|e ents IH]; intros d; simpl.
  - split; [auto|]. intros [H|(e & He & _)]; [exact H|inversion He].
  - rewrite IH, add_entity_get. destruct (decide (label_ e = k)) as [Hk|Hk]; simpl.
    + rewrite elem_of_union, elem_of_singleton. split.
      * intros [[H| ->]|(e' & He' & H)]; [auto| |].
        -- right. exists e. split; [left|auto].
        -- right. exists e'. split; [right; exact He'|exact H].
      * intros [H|(e' & He' & H1 & H2)]; [auto|].
        apply elem_of_cons in He' as [->|He']; [auto|].
        right. exists e'. auto.
    + split.
      * intros [H|(e' & He' & H)]; [auto|]. right. exists e'. split; [right; exact He'|exact H].
      * intros [H|(e' & He' & H1 & H2)]; [auto|].
        apply elem_of_cons in He' as [->|He']; [congruence|].
        right. exists e'. auto.
Qed.

Lemma elem_of_names ents n :
  n ∈ names ents ↔ ∃ ty ns, (ty, ns) ∈ ents ∧ n ∈ ns.
Proof.
  unfold names, pairs. rewrite list_elem_of_fmap. split.
  - intros ([ty' n'] & -> & H). apply elem_of_flat_map in H as ([ty ns] & Hin & H).
    simpl in H. apply list_elem_of_fmap in H as (n0 & [= -> ->] & Hn0).
    exists ty, ns. auto.
  - intros (ty & ns & Hin & Hn). exists (ty, n). split; [reflexivity|].
    apply elem_of_flat_map. exists (ty, ns). split; [exact Hin|].
    simpl. apply list_elem_of_fmap. exists n. auto.
Qed.

Lemma grouped_NoDup ents : NoDup (map fst (foldl add_entity [] ents)).
Proof.
  rewrite grouped_keys. simpl.
  destruct (fresh_keys_spec [] (map label_ ents) (NoDup_nil_2)) as [H _]. exact H.
Qed.

Lemma grouped_labels ents ty :
  ty ∈ map fst (foldl add_entity [] ents) ↔ ∃ e, e ∈ ents ∧ label_ e = ty.
Proof.
  rewrite grouped_keys. simpl.
  destruct (fresh_keys_spec [] (map label_ ents) (NoDup_nil_2)) as [_ H].
  rewrite H, list_elem_of_fmap. split.
  - intros [(e & -> & He) _]. exists e. auto.
  - intros (e & He & <-). split; [exists e; auto|apply not_elem_of_nil].
Qed.

Lemma grouped_names ents ty names t :
  (ty, names) ∈ foldl add_entity [] ents →
  (t ∈ names ↔ ∃ e, e ∈ ents ∧ label_ e = ty ∧ ent_text e = t).
Proof.
  intros Hin. apply dict_get_elem in Hin; [|apply grouped_NoDup].
  pose proof (grouped_get ents [] ty t) as H. rewrite Hin in H. simpl in H.
  rewrite H. split; [intros [Hf|He]; [|exact He]|auto].
  exfalso. exact (not_elem_of_empty (C := gset string) t Hf).
Qed.

Lemma extract_entities_keys list_of_set doc :
  map fst (extract_entities list_of_set doc) = map fst (foldl add_entity [] (ents doc)).
Proof. unfold extract_entities. rewrite map_map. reflexivity. Qed.

(** X14: the entity mapping lists each category of the document's
    entities once, and under each category each surface text of the
    entities of that category once and no other text, provided
    [list(v)] lists the elements of a set, each once. *)
Theorem entities_grouped_by_label
    (list_of_set : gset string → list string) (doc : Doc) :
  (∀ s t, t ∈ list_of_set s ↔ t ∈ s) →
  (∀ s, NoDup (list_of_set s)) →
  let entities := extract_entities list_of_set doc in
  NoDup (map fst entities) ∧
  (∀ ty, ty ∈ map fst entities ↔ ∃ e, e ∈ ents doc ∧ label_ e = ty) ∧
  (∀ ty ns, (ty, ns) ∈ entities →
     NoDup ns ∧
     ∀ n, n ∈ ns ↔ ∃ e, e ∈ ents doc ∧ label_ e = ty ∧ ent_text e = n).
Proof.
  intros Hmem Hnd. simpl. rewrite extract_entities_keys.
  split; [apply grouped_NoDup|]. split; [intros ty; apply grouped_labels|].
  intros ty ns Hin. unfold extract_entities in Hin.
  apply list_elem_of_fmap in Hin as ([ty' names] & [= -> ->] & Hin). simpl.
  split; [apply Hnd|]. intros n. rewrite Hmem. apply grouped_names. exact Hin.
Qed.

(** X15: the categories come in the mapping in the order in which each
    first appears among the entities: before the category of an entity
    that is the first of its category come the categories of the
    entities before it, and no other. *)
Theorem entity_types_in_order_of_first_entity
    (list_of_set : gset string → list string)
    (pre post : list Ent) (e : Ent) (sentences : list Sent) :
  label_ e ∉ map label_ pre →
  ∃ later,
    map fst (extract_entities list_of_set (mkDoc (pre ++ e :: post) sentences)) =
    map fst (extract_entities list_of_set (mkDoc pre sentences)) ++ label_ e :: later.
Proof.
  intros Hfirst. rewrite !extract_entities_keys. simpl.
  rewrite foldl_app. simpl. rewrite grouped_keys, add_entity_keys.
  rewrite decide_False.
  - rewrite <- app_assoc. eexists. reflexivity.
  - intros H. apply grouped_labels in H as (e' & He' & Hl). apply Hfirst.
    apply list_elem_of_fmap. exists e'. auto.
Qed.

(** X16: every triple of the relation list comes from a subject token
    of a sentence and a child of it in a qualifying role: its subject
    is the text of the token, its predicate the lemma of the child in
    upper case ([upper] is [str.upper]), its object the texts of the
    child's subtree but the determiners', joined by spaces, the text of
    the child among them. *)
Theorem triples_come_from_subjects
    (upper : string → string) (doc : Doc) (s p o : string) :
  (s, p, o) ∈ extract_relations upper doc →
  ∃ sent token child,
    sent ∈ sents doc ∧ token ∈ sent ∧
    dep_ token ∈ ["nsubj"; "nsubjpass"] ∧
    child ∈ children token ∧
    dep_ child ∈ ["attr"; "acomp"; "dobj"] ∧
    s = Spacy.text token ∧
    p = upper (lemma_ child) ∧
    o = PyStr.join " "
          (map Spacy.text (filter (λ t, dep_ t ≠ "det") (subtree child))) ∧
    Spacy.text child
      ∈ map Spacy.text (filter (λ t, dep_ t ≠ "det") (subtree child)).
Proof.
  intros Hin. apply extract_relations_spec in Hin
    as (sent & token & child & Hsent & Htok & Hsub & Hch & Hobj & [= -> -> ->]).
  exists sent, token, child. repeat split; try assumption.
  apply list_elem_of_fmap. exists child.
  split; [reflexivity|apply subtree_keeps_child; exact Hobj].
Qed.

(** X17: when the analyzer's output is materialized, the number of
    entities reported as stored is the number of distinct surface texts
    among the entities of the document, whatever their categories,
    provided [list(v)] lists the elements of a set. *)
Theorem stored_entities_are_distinct_texts
    (upper : string → string)
    (nlp : string → Doc) (list_of_set : gset string → list string)
    (a : ArticleData) (article_text : string) (w : World) :
  (∀ s t, t ∈ list_of_set s ↔ t ∈ s) →
  stored_entities
    (eval (store_in_graphdb a
             (extract_entities_and_relations upper nlp list_of_set article_text)) w) =
  size (list_to_set (map ent_text (ents (nlp article_text))) : gset string).
Proof.
  intros Hmem. rewrite eval_run. simpl. rewrite <- size_dom, flattened_dom.
  f_equal. apply set_eq. intros n. rewrite !elem_of_list_to_set, elem_of_names.
  rewrite list_elem_of_fmap. split.
  - intros (ty & ns & Hin & Hn). unfold extract_entities in Hin.
    apply list_elem_of_fmap in Hin as ([ty' names] & [= -> ->] & Hin).
    simpl in Hn. apply Hmem in Hn.
    apply (grouped_names _ _ _ n Hin) in Hn as (e & He & _ & Ht). exists e. auto.
  - intros (e & -> & He).
    assert (Hty : label_ e ∈ map fst (foldl add_entity [] (ents (nlp article_text)))).
    { apply grouped_labels. exists e. auto. }
    apply list_elem_of_fmap in Hty as ([ty names] & Hty & Hin). simpl in Hty. subst ty.
    exists (label_ e), (list_of_set names). split.
    + unfold extract_entities. apply list_elem_of_fmap. exists (label_ e, names). auto.
    + apply Hmem. apply (grouped_names _ _ _ (ent_text e) Hin). exists e. auto.
Qed.

End AnalyzerExtras.

Section AnalyzerWitnesses.
Import Neo Materializer Spacy Analyzer Scenarios SessionScenarios.

Lemma entities_grouped_by_label_witness :
  map fst (extract_entities elements (mkDoc example_ents [])) = ["ORG"; "GPE"; "PERSON"] ∧
  NoDup (map fst (extract_entities elements (mkDoc example_ents []))).
Proof.
  destruct (entities_grouped_by_label elements (mkDoc example_ents [])) as [H _].
  - intros s t. apply elem_of_elements.
  - intros s. apply NoDup_elements.
  - split; [vm_compute; reflexivity|exact H].
Defined.

Lemma entity_types_in_order_of_first_entity_witness :
  ∃ later,
    map fst (extract_entities elements (mkDoc example_ents [])) = ["ORG"] ++ "GPE" :: later.
Proof.
  apply (entity_types_in_order_of_first_entity elements
           [mkEnt 0 1 "ORG" "Acme"] _ (mkEnt 3 4 "GPE" "Paris") []).
  simpl. intros H. apply list_elem_of_singleton in H. discriminate H.
Defined.

Lemma triples_come_from_subjects_witness :
  ∃ sent token child,
    sent ∈ sents (company_parse "dobj") ∧ token ∈ sent ∧
    dep_ token ∈ ["nsubj"; "nsubjpass"] ∧
    child ∈ children token ∧
    dep_ child ∈ ["attr"; "acomp"; "dobj"] ∧
    "company" = Spacy.text token ∧
    "ANNOUNCE" = PyStr.ascii_upper (lemma_ child) ∧
    "announced record profits" =
      PyStr.join " "
        (map Spacy.text (filter (λ t, dep_ t ≠ "det") (subtree child))) ∧
    Spacy.text child
      ∈ map Spacy.text (filter (λ t, dep_ t ≠ "det") (subtree child)).
Proof.
  apply (triples_come_from_subjects PyStr.ascii_upper (company_parse "dobj")
           "company" "ANNOUNCE" "announced record profits").
  vm_compute. left.
Defined.

Lemma stored_entities_are_distinct_texts_witness :
  stored_entities
    (eval (store_in_graphdb some_article
             (extract_entities_and_relations PyStr.ascii_upper (λ _, mkDoc example_ents [])
                elements "Acme"))
       empty_world) = 3.
Proof.
  rewrite (stored_entities_are_distinct_texts PyStr.ascii_upper
             (λ _, mkDoc example_ents []) elements).
  - vm_compute. reflexivity.
  - intros s t. apply elem_of_elements.
Defined.

End AnalyzerWitnesses.
